(** * soundbot: the playlist music bot, embedded and verified

    A shallow embedding of [soundbot.py] (class [MusicBot]): the settings
    store, the playlist resolver, the media fetcher, the delivery pipeline,
    the scheduler set-up and the command handlers, each translated from the
    Python method of the same name.  Python's exceptions, the mutable bot
    object and the outside world (settings file, scratch directories,
    messages sent, log) are threaded through a small state-and-exception
    monad. *)

From Stdlib Require Import ZArith QArith Lia List Ascii String.
From stdpp Require Import gmap strings list fin_maps.

Set Warnings "-register-all".
#[local] Open Scope Z_scope.

(** ** Exceptions and the monad *)

(** The exception classes the program can meet.  Every one of them derives
    from Python's [Exception], so a clause [except Exception] catches all. *)
Inductive exn :=
| OSError | FileNotFoundError | JSONDecodeError | TypeError | AttributeError
| ValueError | IndexError | DownloadError | TelegramError
| ConflictingIdError | SchedulerAlreadyRunningError | OverflowError.

Inductive result (A : Type) :=
| Ret (a : A)
| Raise (e : exn).
Arguments Ret {A} a.
Arguments Raise {A} e.

(** A computation reads and writes a state and either returns or raises.  The
    state reached is kept when an exception is raised: what Python mutated
    before the raise stays mutated. *)
Definition M (S A : Type) : Type := S → result A * S.

Section Monad.
Context {S : Type}.

Definition ret {A} (a : A) : M S A := λ s, (Ret a, s).

Definition bind {A B} (m : M S A) (k : A → M S B) : M S B :=
  λ s, match m s with
       | (Ret a, s') => k a s'
       | (Raise e, s') => (Raise e, s')
       end.

Definition raise {A} (e : exn) : M S A := λ s, (Raise e, s).

Definition gets {A} (f : S → A) : M S A := λ s, (Ret (f s), s).

Definition modify (f : S → S) : M S unit := λ s, (Ret tt, f s).

(** [try: body except Exception as e: handler e] *)
Definition try_except {A} (body : M S A) (handler : exn → M S A) : M S A :=
  λ s, match body s with
       | (Ret a, s') => (Ret a, s')
       | (Raise e, s') => handler e s'
       end.

(** [try: body finally: fin].  The [finally] block runs on both exits; an
    exception of its own replaces the body's outcome. *)
Definition try_finally {A} (body : M S A) (fin : M S unit) : M S A :=
  λ s, match body s with
       | (r, s') =>
           match fin s' with
           | (Ret _, s'') => (r, s'')
           | (Raise e, s'') => (Raise e, s'')
           end
       end.

Definition lift_result {A} (r : result A) : M S A := λ s, (r, s).
End Monad.

Notation "x <- m ;; k" := (bind m (λ x, k))
  (at level 100, m at next level, k at level 200, right associativity,
   only parsing).
Notation "m ;;; k" := (bind m (λ _, k))
  (at level 100, k at level 200, right associativity, only parsing).

(** Run a computation on a part of a larger state. *)
Definition zoom {S T A} (proj : T → S) (inj : S → T → T) (m : M S A) : M T A :=
  λ t, match m (proj t) with (r, s') => (r, inj s' t) end.

(** ** Strings *)

(** Python strings are modelled as Rocq strings (byte sequences, UTF-8 for
    text outside ASCII).  [needle in hay] on two strings: *)
Fixpoint is_substring (needle hay : string) : bool :=
  String.prefix needle hay ||
  match hay with
  | EmptyString => false
  | String _ rest => is_substring needle rest
  end.

(** [str.lower], on the ASCII letters.  Bytes outside ASCII are kept: Python
    may change such a character, but never into one of the ASCII letters of
    [audio] or [video], so the format test below reads the same. *)
Definition lower_ascii (c : ascii) : ascii :=
  let n := nat_of_ascii c in
  if (Nat.leb 65 n && Nat.leb n 90)%bool then ascii_of_nat (n + 32) else c.

Fixpoint lower (s : string) : string :=
  match s with
  | EmptyString => EmptyString
  | String c rest => String (lower_ascii c) (lower rest)
  end.

(** ** JSON values: what [json.load] returns and [json.dump] takes *)

Inductive json :=
| JNull
| JBool (b : bool)
| JNum (q : Q)
| JStr (s : string)
| JArr (l : list json)
| JObj (m : gmap string json).

(** [key in config], for a string [key]: a key of a dict, an element of a
    list, a substring of a string; a [TypeError] on anything else. *)
Definition py_contains (config : json) (key : string) : result bool :=
  match config with
  | JObj m => Ret (bool_decide (is_Some (m !! key)))
  | JArr l => Ret (existsb (λ v, match v with
                                  | JStr s => String.eqb s key
                                  | _ => false
                                  end) l)
  | JStr s => Ret (is_substring key s)
  | JNull | JBool _ | JNum _ => Raise TypeError
  end.

(** [config[key] = value], for a string [key]: only a dict takes it. *)
Definition py_setitem (config : json) (key : string) (value : json) : result json :=
  match config with
  | JObj m => Ret (JObj (<[key := value]> m))
  | _ => Raise TypeError
  end.

(** Truth value of a Python object, as [if x], [not x] and [x or y] read it. *)
Definition truthy (v : json) : bool :=
  match v with
  | JNull => false
  | JBool b => b
  | JNum q => negb (Qeq_bool q 0)
  | JStr s => negb (String.eqb s "")
  | JArr l => match l with [] => false | _ => true end
  | JObj m => negb (bool_decide (m = ∅))
  end.

(** ** The outside world *)

(** What the bytes of the settings file are to the program: a file that
    cannot be opened, text that is not JSON, or the text of a JSON value. *)
Inductive file_content :=
| Unreadable
| Garbage
| JsonText (v : json).

(** A file produced by a download: its name in the scratch directory and its
    size in bytes. *)
Record File := { fname : string; fsize : Z }.

(** A path [os.path.join(temp_dir, file)]: the directory (as [mkdtemp]
    numbered it) and the file's name; [os.path.dirname] is [pdir]. *)
Record Path := { pdir : nat; pname : string }.

Inductive Format := Audio | Video.

(** One message sent to the recipient: [send_audio] or [send_video], the
    chat, the attached file and the source URL of the caption. *)
Record Delivery := {
  d_kind : Format;
  d_chat : Z;
  d_file : Path;
  d_url : string
}.

(** The calls to [logger], one constructor per message of the source. *)
Inductive LogEvent :=
| LogConfigSaved
| LogErrSavingConfig (e : exn)
| LogErrLoadingConfig (e : exn)
| LogNoVideosInPlaylist (url : string)
| LogErrExtractingPlaylist (url : string) (e : exn)
| LogDownloaded (f : File)
| LogFileTooLarge (f : File)
| LogErrDownloading (url : string) (e : exn)
| LogNoPlaylistsConfigured
| LogBotDisabled
| LogSelectedPlaylist (url : string)
| LogNoVideosFound
| LogSelectedVideo (url : string)
| LogSentFile
| LogErrSending (e : exn)
| LogCleanedUp
| LogErrCleaningUp (e : exn)
| LogErrSendRandomMusic (e : exn)
| LogSchedulerStarted (minutes : Z).

(** The replies of the command handlers ([update.message.reply_text]), one
    constructor per message text of the source. *)
Inductive Reply :=
| RWelcome
| RHelp
| RStatus (is_enabled : bool) (minutes : Z) (format : string) (max_mb : Q)
          (n_playlists : nat)
| RNeedPlaylistUrl
| RInvalidPlaylistUrl
| RAlreadyInList
| RTestingPlaylist
| RPlaylistAdded (found total : nat)
| RPlaylistInaccessible
| RNeedPlaylistNumber
| RPlaylistRemoved (number : Z) (url : string)
| RInvalidPlaylistNumber
| RNotANumber
| RNoPlaylistsToList
| RPlaylistList (urls : list string)
| RCannotEnable
| REnabled (minutes : Z) (format : string)
| RDisabled
| RNeedInterval
| RIntervalTooSmall
| RIntervalSet (minutes : Z)
| RIntervalNotANumber
| RNeedFormat
| RBadFormat
| RFormatSet (format : string)
| RSendNowNoPlaylists
| RSelecting
| RNotAuthorized.

Record World := {
  config_file : option file_content;  (* bot_config.json; None: no such file *)
  disk_writable : bool;               (* open(config_file, 'w') succeeds *)
  tmp : gmap nat (list File);         (* scratch directories, in listdir order *)
  sent : list Delivery;               (* messages delivered to the recipient *)
  replies : list (Z * Reply);         (* replies, each with the user replied to *)
  log : list LogEvent                 (* oldest first *)
}.

Definition set_config_file (c : option file_content) (w : World) : World :=
  {| config_file := c; disk_writable := disk_writable w; tmp := tmp w;
     sent := sent w; replies := replies w; log := log w |}.

Definition set_tmp (t : gmap nat (list File)) (w : World) : World :=
  {| config_file := config_file w; disk_writable := disk_writable w; tmp := t;
     sent := sent w; replies := replies w; log := log w |}.

Definition add_sent (d : Delivery) (w : World) : World :=
  {| config_file := config_file w; disk_writable := disk_writable w; tmp := tmp w;
     sent := sent w ++ [d]; replies := replies w; log := log w |}.

Definition add_reply (r : Z * Reply) (w : World) : World :=
  {| config_file := config_file w; disk_writable := disk_writable w; tmp := tmp w;
     sent := sent w; replies := replies w ++ [r]; log := log w |}.

Definition add_log (e : LogEvent) (w : World) : World :=
  {| config_file := config_file w; disk_writable := disk_writable w; tmp := tmp w;
     sent := sent w; replies := replies w; log := log w ++ [e] |}.

Definition logger (e : LogEvent) : M World unit := modify (add_log e).

(** ** ConfigStore: [load_config] and [save_config] *)

Module ConfigStore.

(** [default_config.items()], in the order of the dict display. *)
Definition default_items : list (string * json) :=
  [ ("playlists", JArr []);
    ("interval_minutes", JNum 1);
    ("download_format", JStr "audio");
    ("max_file_size_mb", JNum 50);
    ("enabled", JBool false) ].

Definition default_config : gmap string json := list_to_map default_items.

(** [os.path.exists(self.config_file)] *)
Definition path_exists : M World bool :=
  gets (λ w, match config_file w with Some _ => true | None => false end).

(** [with open(self.config_file, 'r') as f: config = json.load(f)] *)
Definition read_json : M World json :=
  c <- gets config_file ;;
  match c with
  | None => raise FileNotFoundError
  | Some Unreadable => raise OSError
  | Some Garbage => raise JSONDecodeError
  | Some (JsonText v) => ret v
  end.

(** [with open(self.config_file, 'w') as f: json.dump(config, f, indent=2)] *)
Definition write_json (v : json) : M World unit :=
  ok <- gets disk_writable ;;
  if ok then modify (set_config_file (Some (JsonText v)))
  else raise OSError.

(** [save_config(self, config=None)].  [self_config] is [self.config], absent
    while [__init__] has not assigned it yet. *)
Definition save_config (config : option json) (self_config : option json)
  : M World unit :=
  try_except
    (config_to_save <-
       match config with
       | Some c => if truthy c then ret c
                   else match self_config with
                        | Some sc => ret sc
                        | None => raise AttributeError
                        end
       | None => match self_config with
                 | Some sc => ret sc
                 | None => raise AttributeError
                 end
       end ;;
     write_json config_to_save ;;;
     logger LogConfigSaved)
    (λ e, logger (LogErrSavingConfig e)).

(** The merge loop of [load_config]:
    [for key, value in default_config.items():
         if key not in config: config[key] = value] *)
Fixpoint backfill (items : list (string * json)) (config : json) : result json :=
  match items with
  | [] => Ret config
  | (key, value) :: rest =>
      match py_contains config key with
      | Raise e => Raise e
      | Ret true => backfill rest config
      | Ret false =>
          match py_setitem config key value with
          | Raise e => Raise e
          | Ret config' => backfill rest config'
          end
      end
  end.

Definition load_config : M World json :=
  try_except
    (ex <- path_exists ;;
     if ex then
       config <- read_json ;;
       lift_result (backfill default_items config)
     else
       save_config (Some (JObj default_config)) None ;;;
       ret (JObj default_config))
    (λ e, logger (LogErrLoadingConfig e) ;;; ret (JObj default_config)).

End ConfigStore.

(** ** The settings record *)

(** [self.config] as the handlers use it: the five keys of the default
    record, each with the type its default has ([max_file_size_mb] a number,
    integer or not).  [load_config] backfills the five keys, so they are
    there; a settings file edited to hold values of other types is outside
    this record. *)
Record Settings := {
  playlists : list string;
  interval_minutes : Z;
  download_format : string;
  max_file_size_mb : Q;
  enabled : bool
}.

Definition set_playlists (l : list string) (c : Settings) : Settings :=
  {| playlists := l; interval_minutes := interval_minutes c;
     download_format := download_format c;
     max_file_size_mb := max_file_size_mb c; enabled := enabled c |}.

Definition set_interval_minutes (n : Z) (c : Settings) : Settings :=
  {| playlists := playlists c; interval_minutes := n;
     download_format := download_format c;
     max_file_size_mb := max_file_size_mb c; enabled := enabled c |}.

Definition set_download_format (f : string) (c : Settings) : Settings :=
  {| playlists := playlists c; interval_minutes := interval_minutes c;
     download_format := f;
     max_file_size_mb := max_file_size_mb c; enabled := enabled c |}.

Definition set_enabled (b : bool) (c : Settings) : Settings :=
  {| playlists := playlists c; interval_minutes := interval_minutes c;
     download_format := download_format c;
     max_file_size_mb := max_file_size_mb c; enabled := b |}.

(** The record as the dict that [json.dump] writes. *)
Definition settings_json (c : Settings) : json :=
  JObj (list_to_map
          [ ("playlists", JArr (JStr <$> playlists c));
            ("interval_minutes", JNum (inject_Z (interval_minutes c)));
            ("download_format", JStr (download_format c));
            ("max_file_size_mb", JNum (max_file_size_mb c));
            ("enabled", JBool (enabled c)) ]).

Definition default_settings : Settings :=
  {| playlists := []; interval_minutes := 1; download_format := "audio";
     max_file_size_mb := 50; enabled := false |}.

(** ** The scheduler collaborator *)

(** [AsyncIOScheduler] of the APScheduler library, as far as the bot drives
    it, after the library's documented behaviour: a job added to a scheduler
    that is not running waits in a pending list until [start]; a job added to
    a running scheduler goes to the job store, where an identifier is held
    once ([replace_existing] replaces the job that holds it, and without it
    the add is refused); [remove_all_jobs] empties the job store of a running
    scheduler and the pending list of a stopped one. *)
Module Sched.

(** A job: its identifier and the minutes of its [IntervalTrigger]. *)
Record Job := { job_id : string; job_minutes : Z }.

Record Scheduler := {
  running : bool;
  pending_jobs : list (Job * bool);   (* job, replace_existing *)
  jobstore : list Job
}.

Definition new_scheduler : Scheduler :=
  {| running := false; pending_jobs := []; jobstore := [] |}.

Definition has_id (id : string) (store : list Job) : bool :=
  existsb (λ j, String.eqb (job_id j) id) store.

Definition real_add_job (job : Job) (replace_existing : bool) (store : list Job)
  : result (list Job) :=
  if has_id (job_id job) store then
    if replace_existing then
      Ret ((λ j, if String.eqb (job_id j) (job_id job) then job else j) <$> store)
    else Raise ConflictingIdError
  else Ret (store ++ [job]).

Definition add_job (job : Job) (replace_existing : bool) : M Scheduler unit :=
  λ s, if running s then
         match real_add_job job replace_existing (jobstore s) with
         | Ret store' =>
             (Ret tt, {| running := true; pending_jobs := pending_jobs s;
                         jobstore := store' |})
         | Raise e => (Raise e, s)
         end
       else
         (Ret tt, {| running := false;
                     pending_jobs := pending_jobs s ++ [(job, replace_existing)];
                     jobstore := jobstore s |}).

(** The pending jobs are added one by one; an add that is refused leaves
    the scheduler stopped, with the jobs added so far in the store. *)
Fixpoint add_pending (pending : list (Job * bool)) (store : list Job)
  : result (list Job) * list Job :=
  match pending with
  | [] => (Ret store, store)
  | (job, replace_existing) :: rest =>
      match real_add_job job replace_existing store with
      | Ret store' => add_pending rest store'
      | Raise e => (Raise e, store)
      end
  end.

Definition start : M Scheduler unit :=
  λ s, if running s then (Raise SchedulerAlreadyRunningError, s)
       else match add_pending (pending_jobs s) (jobstore s) with
            | (Ret store', _) =>
                (Ret tt, {| running := true; pending_jobs := [];
                            jobstore := store' |})
            | (Raise e, store') =>
                (Raise e, {| running := false; pending_jobs := pending_jobs s;
                             jobstore := store' |})
            end.

Definition remove_all_jobs : M Scheduler unit :=
  λ s, if running s then
         (Ret tt, {| running := true; pending_jobs := pending_jobs s;
                     jobstore := [] |})
       else
         (Ret tt, {| running := false; pending_jobs := [];
                     jobstore := jobstore s |}).

(** Every job the scheduler holds, stored or waiting. *)
Definition all_jobs (s : Scheduler) : list Job :=
  jobstore s ++ (fst <$> pending_jobs s).

End Sched.

(** *** The trigger of the job *)

(** Times are counted in microseconds of the local wall clock from
    [datetime.min] (0001-01-01 00:00:00); [datetime.max] is the last
    microsecond of the year 9999, 3652059 days later. *)
Definition datetime_max : Z := 3652059 * 86400000000 - 1.

(** [timedelta(minutes=n)], in microseconds: Python refuses a duration of
    more than 999999999 days, either way, with [OverflowError]. *)
Definition timedelta (minutes : Z) : result Z :=
  let days := minutes / 1440 in
  if ((-999999999 <=? days) && (days <=? 999999999))%bool
  then Ret (minutes * 60000000)
  else Raise OverflowError.

(** [t + delta] on a [datetime]: [OverflowError] outside
    [datetime.min .. datetime.max]. *)
Definition datetime_add (t delta : Z) : result Z :=
  if ((0 <=? t + delta) && (t + delta <=? datetime_max))%bool
  then Ret (t + delta)
  else Raise OverflowError.

(** [IntervalTrigger(minutes=n)], built at the time [now]: the interval is
    [timedelta(minutes=n)], one second when that is zero, and the first run
    is set to [datetime.now(tz) + interval].  The answer is that start date;
    both steps can raise. *)
Definition IntervalTrigger (now minutes : Z) : result Z :=
  match timedelta minutes with
  | Ret delta => datetime_add now (if delta =? 0 then 1000000 else delta)
  | Raise e => Raise e
  end.

(** ** The bot and its collaborators *)

(** The [MusicBot] object ([user_id], [config], [scheduler]) together with
    the world it acts on. *)
Record St := {
  user_id : Z;
  config : Settings;
  scheduler : Sched.Scheduler;
  world : World
}.

Definition set_config (c : Settings) (s : St) : St :=
  {| user_id := user_id s; config := c; scheduler := scheduler s;
     world := world s |}.

Definition set_scheduler (sc : Sched.Scheduler) (s : St) : St :=
  {| user_id := user_id s; config := config s; scheduler := sc;
     world := world s |}.

Definition set_world (w : World) (s : St) : St :=
  {| user_id := user_id s; config := config s; scheduler := scheduler s;
     world := w |}.

Definition in_world {A} (m : M World A) : M St A := zoom world set_world m.
Definition in_scheduler {A} (m : M Sched.Scheduler A) : M St A :=
  zoom scheduler set_scheduler m.

(** An inbound update (the user it comes from) and the context the
    application hands to a handler (the words after the command). *)
Record Update := { effective_user : Z }.
Record Context := { args : list string }.

(** An entry of [playlist_info['entries']]: [None], or a dict that may hold
    a [webpage_url]. *)
Inductive Entry :=
| EntryNone
| EntryDict (webpage_url : option string).

(** What [extract_info(playlist_url, download=False)] returns: a dict with
    or without the key [entries]. *)
Inductive PlaylistInfo :=
| WithEntries (entries : list Entry)
| WithoutEntries.

(** What yt-dlp does for one video: [extract_info(video_url, download=False)]
    may raise; [download] leaves [dl_files] in the directory of [outtmpl] and
    may raise after that. *)
Record Download := {
  dl_extract_error : option exn;
  dl_files : list File;
  dl_error : option exn
}.

(** The collaborators of one handler run or one cycle: the extraction
    library, the two draws of [random.choice], the messaging API's answer to
    the send, Python's [int] on a string ([None]: [ValueError]), and the
    clock ([datetime.now], in microseconds from [datetime.min]). *)
Record Env := {
  extract_playlist : string → result PlaylistInfo;
  ydl_download : string → bool → Download;   (* video URL, audio options? *)
  draw_playlist : nat;
  draw_video : nat;
  send_error : option exn;
  py_int : string → option Z;
  now : Z
}.

(** [random.choice(l)]: some element of a non-empty list, [IndexError] on
    an empty one. *)
Definition random_choice {S A} (draw : nat) (l : list A) : M S A :=
  match l !! (draw mod length l)%nat with
  | Some x => ret x
  | None => raise IndexError
  end.

(** *** Scratch directories *)

(** [tempfile.mkdtemp()]: a new, empty directory. *)
Definition mkdtemp : M World nat :=
  λ w, let d := fresh (dom (tmp w)) in
       (Ret d, set_tmp (<[d := []]> (tmp w)) w).

(** The download writes its files into the directory. *)
Definition write_files (d : nat) (files : list File) : M World unit :=
  modify (λ w, set_tmp (alter (λ old, old ++ files) d (tmp w)) w).

(** [os.listdir(d)] *)
Definition listdir (d : nat) : M World (list string) :=
  t <- gets tmp ;;
  match t !! d with
  | Some files => ret (fname <$> files)
  | None => raise FileNotFoundError
  end.

Definition find_file (p : Path) (t : gmap nat (list File)) : option File :=
  match t !! pdir p with
  | Some files => List.find (λ f, String.eqb (fname f) (pname p)) files
  | None => None
  end.

(** [os.path.getsize(file_path)], in bytes *)
Definition getsize (p : Path) : M World Z :=
  t <- gets tmp ;;
  match find_file p t with
  | Some f => ret (fsize f)
  | None => raise FileNotFoundError
  end.

(** [os.path.exists(file_path)] *)
Definition file_exists (p : Path) : M World bool :=
  t <- gets tmp ;;
  ret (match find_file p t with Some _ => true | None => false end).

(** [os.path.exists(temp_dir)] *)
Definition dir_exists (d : nat) : M World bool :=
  t <- gets tmp ;;
  ret (match t !! d with Some _ => true | None => false end).

(** [os.remove(file_path)] *)
Definition os_remove (p : Path) : M World unit :=
  t <- gets tmp ;;
  match find_file p t with
  | Some _ =>
      modify (λ w, set_tmp
                     (alter (List.filter (λ f, negb (String.eqb (fname f) (pname p))))
                            (pdir p) (tmp w)) w)
  | None => raise FileNotFoundError
  end.

(** [os.rmdir(temp_dir)]: only an empty directory goes. *)
Definition os_rmdir (d : nat) : M World unit :=
  t <- gets tmp ;;
  match t !! d with
  | Some [] => modify (λ w, set_tmp (delete d (tmp w)) w)
  | Some (_ :: _) => raise OSError
  | None => raise FileNotFoundError
  end.

(** A [for] loop whose body may [return]: the body answers [Some r] for
    [return r] and [None] to go on with the next element; the loop answers
    [None] when it runs off the end of the list. *)
Fixpoint for_return {S A R} (l : list A) (body : A → M S (option R))
  : M S (option R) :=
  match l with
  | [] => ret None
  | x :: rest =>
      r <- body x ;;
      match r with
      | Some v => ret (Some v)
      | None => for_return rest body
      end
  end.

(** The size in megabytes that the source compares:
    [os.path.getsize(file_path) / (1024 * 1024)].  The quotient is the exact
    rational; Python's float quotient by a power of two is exact as well for
    every size below 2^53 bytes, and its comparison with a number is exact. *)
Definition size_mb (bytes : Z) : Q := bytes # 1048576.

Section Bot.
Variable env : Env.

(** *** PlaylistResolver: [get_playlist_videos] *)
Definition get_playlist_videos (playlist_url : string) : M St (list string) :=
  try_except
    (playlist_info <- lift_result (extract_playlist env playlist_url) ;;
     match playlist_info with
     | WithEntries entries =>
         ret (foldl (λ video_urls entry,
                       match entry with
                       | EntryDict (Some url) => video_urls ++ [url]
                       | _ => video_urls
                       end) [] entries)
     | WithoutEntries =>
         in_world (logger (LogNoVideosInPlaylist playlist_url)) ;;;
         ret []
     end)
    (λ e, in_world (logger (LogErrExtractingPlaylist playlist_url e)) ;;;
          ret []).

(** *** MediaFetcher: [download_and_convert] *)
Definition download_and_convert (video_url download_format : string)
  : M St (option Path) :=
  try_except
    (temp_dir <- in_world mkdtemp ;;
     let dl := ydl_download env video_url (String.eqb download_format "audio") in
     match dl_extract_error dl with Some e => raise e | None => ret tt end ;;;
     in_world (write_files temp_dir (dl_files dl)) ;;;
     match dl_error dl with Some e => raise e | None => ret tt end ;;;
     files <- in_world (listdir temp_dir) ;;
     returned <-
       for_return files
         (λ file,
            let file_path := {| pdir := temp_dir; pname := file |} in
            bytes <- in_world (getsize file_path) ;;
            let file_size := size_mb bytes in
            cfg <- gets config ;;
            if Qle_bool file_size (max_file_size_mb cfg) then
              in_world (logger (LogDownloaded {| fname := file; fsize := bytes |})) ;;;
              ret (Some (Some file_path))
            else
              in_world (logger (LogFileTooLarge {| fname := file; fsize := bytes |})) ;;;
              in_world (os_remove file_path) ;;;
              ret (Some None)) ;;
     match returned with
     | Some r => ret r
     | None => ret None
     end)
    (λ e, in_world (logger (LogErrDownloading video_url e)) ;;; ret None).

(** [context.bot.send_audio] and [context.bot.send_video]; the scheduled job
    is registered with [args=[None]], so there [context] is [None]. *)
Definition bot_send (context : option Context) (kind : Format) (file_path : Path)
           (video_url : string) : M St unit :=
  match context with
  | None => raise AttributeError
  | Some _ =>
      ex <- in_world (file_exists file_path) ;;     (* open(file_path, 'rb') *)
      if ex then
        match send_error env with
        | Some e => raise e
        | None =>
            chat <- gets user_id ;;
            in_world (modify (add_sent {| d_kind := kind; d_chat := chat;
                                          d_file := file_path; d_url := video_url |}))
        end
      else raise FileNotFoundError
  end.

(** *** DeliveryPipeline: [send_random_music] *)
Definition send_random_music (context : option Context) : M St unit :=
  try_except
    (cfg <- gets config ;;
     match playlists cfg with
     | [] => in_world (logger LogNoPlaylistsConfigured)
     | _ :: _ =>
         if negb (enabled cfg) then in_world (logger LogBotDisabled)
         else
           playlist_url <- random_choice (draw_playlist env) (playlists cfg) ;;
           in_world (logger (LogSelectedPlaylist playlist_url)) ;;;
           video_urls <- get_playlist_videos playlist_url ;;
           match video_urls with
           | [] => in_world (logger LogNoVideosFound)
           | _ :: _ =>
               video_url <- random_choice (draw_video env) video_urls ;;
               in_world (logger (LogSelectedVideo video_url)) ;;;
               fmt <- gets (λ s, download_format (config s)) ;;
               file_path <- download_and_convert video_url fmt ;;
               match file_path with
               | None => ret tt
               | Some file_path =>
                   ex <- in_world (file_exists file_path) ;;
                   if ex then
                     try_finally
                       (try_except
                          (fmt' <- gets (λ s, download_format (config s)) ;;
                           (if String.eqb fmt' "audio"
                            then bot_send context Audio file_path video_url
                            else bot_send context Video file_path video_url) ;;;
                           in_world (logger LogSentFile))
                          (λ e, in_world (logger (LogErrSending e))))
                       (try_except
                          (in_world (os_remove file_path) ;;;
                           let temp_dir := pdir file_path in
                           dex <- in_world (dir_exists temp_dir) ;;
                           (if dex then
                              names <- in_world (listdir temp_dir) ;;
                              match names with
                              | [] => in_world (os_rmdir temp_dir)
                              | _ :: _ => ret tt
                              end
                            else ret tt) ;;;
                           in_world (logger LogCleanedUp))
                          (λ e, in_world (logger (LogErrCleaningUp e))))
                   else ret tt
               end
           end
     end)
    (λ e, in_world (logger (LogErrSendRandomMusic e))).

(** [self.save_config()], as the handlers call it: the current record. *)
Definition save_config : M St unit :=
  cfg <- gets config ;;
  in_world (ConfigStore.save_config None (Some (settings_json cfg))).

Definition reply_text (update : Update) (r : Reply) : M St unit :=
  in_world (modify (add_reply (effective_user update, r))).

(** *** Scheduler: [setup_scheduler] *)

(** The arguments of [add_job] are evaluated before the call, so the
    trigger is built, or raises, after the jobs were removed and before the
    job is added. *)
Definition setup_scheduler : M St unit :=
  r <- gets (λ s, Sched.running (scheduler s)) ;;
  (if r then in_scheduler Sched.remove_all_jobs else ret tt) ;;;
  cfg <- gets config ;;
  if (enabled cfg && match playlists cfg with [] => false | _ => true end)%bool
  then
    lift_result (IntervalTrigger (now env) (interval_minutes cfg)) ;;;
    in_scheduler
      (Sched.add_job {| Sched.job_id := "send_music_job";
                        Sched.job_minutes := interval_minutes cfg |} true) ;;;
    r' <- gets (λ s, Sched.running (scheduler s)) ;;
    (if negb r' then in_scheduler Sched.start else ret tt) ;;;
    in_world (logger (LogSchedulerStarted (interval_minutes cfg)))
  else ret tt.

(** *** The command handlers *)

Definition start_command (update : Update) (context : Context) : M St unit :=
  reply_text update RWelcome.

Definition help_command (update : Update) (context : Context) : M St unit :=
  reply_text update RHelp.

Definition status_command (update : Update) (context : Context) : M St unit :=
  cfg <- gets config ;;
  reply_text update
    (RStatus (enabled cfg) (interval_minutes cfg) (download_format cfg)
             (max_file_size_mb cfg) (length (playlists cfg))).

Definition add_playlist_command (update : Update) (context : Context)
  : M St unit :=
  match args context with
  | [] => reply_text update RNeedPlaylistUrl
  | playlist_url :: _ =>
      if (negb (is_substring "youtube.com/playlist" playlist_url)
          && negb (is_substring "youtu.be/playlist" playlist_url))%bool
      then reply_text update RInvalidPlaylistUrl
      else
        cfg <- gets config ;;
        if bool_decide (playlist_url ∈ playlists cfg)
        then reply_text update RAlreadyInList
        else
          reply_text update RTestingPlaylist ;;;
          video_urls <- get_playlist_videos playlist_url ;;
          match video_urls with
          | _ :: _ =>
              modify (λ s, set_config
                             (set_playlists (playlists (config s) ++ [playlist_url])
                                            (config s)) s) ;;;
              save_config ;;;
              total <- gets (λ s, length (playlists (config s))) ;;
              reply_text update (RPlaylistAdded (length video_urls) total)
          | [] => reply_text update RPlaylistInaccessible
          end
  end.

(** [int(context.args[0])] is the only call of the [try] block that raises
    [ValueError], so the [except ValueError] clause is the [None] branch. *)
Definition remove_playlist_command (update : Update) (context : Context)
  : M St unit :=
  match args context with
  | [] => reply_text update RNeedPlaylistNumber
  | arg :: _ =>
      match py_int env arg with
      | None => reply_text update RNotANumber
      | Some n =>
          let playlist_num := n - 1 in
          cfg <- gets config ;;
          if ((0 <=? playlist_num) && (playlist_num <? Z.of_nat (length (playlists cfg))))%bool
          then
            match playlists cfg !! Z.to_nat playlist_num with
            | Some removed_playlist =>
                modify (λ s, set_config
                               (set_playlists
                                  (delete (Z.to_nat playlist_num) (playlists (config s)))
                                  (config s)) s) ;;;
                save_config ;;;
                reply_text update (RPlaylistRemoved (playlist_num + 1) removed_playlist)
            | None => raise IndexError
            end
          else reply_text update RInvalidPlaylistNumber
      end
  end.

Definition list_playlists_command (update : Update) (context : Context)
  : M St unit :=
  cfg <- gets config ;;
  match playlists cfg with
  | [] => reply_text update RNoPlaylistsToList
  | _ :: _ => reply_text update (RPlaylistList (playlists cfg))
  end.

Definition enable_command (update : Update) (context : Context) : M St unit :=
  cfg <- gets config ;;
  match playlists cfg with
  | [] => reply_text update RCannotEnable
  | _ :: _ =>
      modify (λ s, set_config (set_enabled true (config s)) s) ;;;
      save_config ;;;
      setup_scheduler ;;;
      cfg' <- gets config ;;
      reply_text update (REnabled (interval_minutes cfg') (download_format cfg'))
  end.

Definition disable_command (update : Update) (context : Context) : M St unit :=
  modify (λ s, set_config (set_enabled false (config s)) s) ;;;
  save_config ;;;
  r <- gets (λ s, Sched.running (scheduler s)) ;;
  (if r then in_scheduler Sched.remove_all_jobs else ret tt) ;;;
  reply_text update RDisabled.

Definition set_interval_command (update : Update) (context : Context)
  : M St unit :=
  match args context with
  | [] => reply_text update RNeedInterval
  | arg :: _ =>
      match py_int env arg with
      | None => reply_text update RIntervalNotANumber
      | Some interval =>
          if interval <? 1 then reply_text update RIntervalTooSmall
          else
            modify (λ s, set_config (set_interval_minutes interval (config s)) s) ;;;
            save_config ;;;
            cfg <- gets config ;;
            (if enabled cfg then setup_scheduler else ret tt) ;;;
            reply_text update (RIntervalSet interval)
      end
  end.

Definition set_format_command (update : Update) (context : Context)
  : M St unit :=
  match args context with
  | [] => reply_text update RNeedFormat
  | arg :: _ =>
      let format_choice := lower arg in
      if negb (bool_decide (format_choice ∈ ["audio"; "video"]))
      then reply_text update RBadFormat
      else
        modify (λ s, set_config (set_download_format format_choice (config s)) s) ;;;
        save_config ;;;
        reply_text update (RFormatSet format_choice)
  end.

Definition send_now_command (update : Update) (context : Context) : M St unit :=
  cfg <- gets config ;;
  match playlists cfg with
  | [] => reply_text update RSendNowNoPlaylists
  | _ :: _ =>
      reply_text update RSelecting ;;;
      send_random_music (Some context)
  end.

(** *** Authorization *)

Definition check_user_permission (update : Update) (context : Context)
  : M St bool :=
  uid <- gets user_id ;;
  if negb (effective_user update =? uid) then
    reply_text update RNotAuthorized ;;;
    ret false
  else ret true.

Definition Handler : Type := Update → Context → M St unit.

(** The decorator: [wrapper] runs [handler_func] only after the check. *)
Definition authorized_command (handler_func : Handler) : Handler :=
  λ update context,
    ok <- check_user_permission update context ;;
    if ok then handler_func update context else ret tt.

(** *** [run]: the handler table *)

Definition handlers : list (string * Handler) :=
  [ ("start", start_command);
    ("help", help_command);
    ("status", status_command);
    ("enable", enable_command);
    ("disable", disable_command);
    ("add_playlist", add_playlist_command);
    ("remove_playlist", remove_playlist_command);
    ("list_playlists", list_playlists_command);
    ("set_interval", set_interval_command);
    ("set_format", set_format_command);
    ("send_now", send_now_command) ].

(** [application.add_handler(CommandHandler(command, authorized_handler))]
    for each row of the table. *)
Definition registered : list (string * Handler) :=
  (λ '(command, handler), (command, authorized_command handler)) <$> handlers.

End Bot.

(** ** The running bot *)

(** What happens to a bot: [run] sets the scheduler up before it polls for
    commands, a command arrives, or the scheduler fires a job it holds. *)
Inductive Event :=
| Startup
| Inbound (command : string) (update : Update) (context : Context)
| Fire.

(** The application runs the first registered handler of the command; an
    exception that leaves a handler is logged by the application and the bot
    goes on from the state reached.  A running scheduler with a stored job
    calls [send_random_music(None)].  When the set-up of the scheduler raises
    at start-up, [run] logs the error and ends without polling; the runs here
    go on from the state reached, so that every run of the program is one of
    them, cut after that start-up. *)
Definition step (env : Env) (ev : Event) (s : St) : St :=
  match ev with
  | Startup => snd (setup_scheduler env s)
  | Inbound command update context =>
      match List.find (λ row, String.eqb (fst row) command) (registered env) with
      | Some (_, handler) => snd (handler update context s)
      | None => s
      end
  | Fire =>
      if (Sched.running (scheduler s)
          && match Sched.jobstore (scheduler s) with [] => false | _ => true end)%bool
      then snd (send_random_music env None s)
      else s
  end.

(** A run: each event with the collaborators' answers during it. *)
Fixpoint run_events (evs : list (Env * Event)) (s : St) : St :=
  match evs with
  | [] => s
  | (env, ev) :: rest => run_events rest (step env ev s)
  end.

(** A bot with any settings and world whose scheduler was just built, as
    [__init__] leaves it. *)
Definition fresh_bot (uid : Z) (cfg : Settings) (w : World) : St :=
  {| user_id := uid; config := cfg; scheduler := Sched.new_scheduler; world := w |}.

(** The bot of a first run: no settings file yet, so the default record. *)
Definition first_run (uid : Z) (w : World) : St := fresh_bot uid default_settings w.

Definition empty_world : World :=
  {| config_file := None; disk_writable := true; tmp := ∅; sent := [];
     replies := []; log := [] |}.

(** ** Notions used by the properties *)

(** What [self.save_config()] makes of the world when the record is [cfg]:
    the file holds the record when it can be written; the failure is logged
    when it cannot. *)
Definition persist (cfg : Settings) (w : World) : World :=
  if disk_writable w
  then add_log LogConfigSaved
         (set_config_file (Some (JsonText (settings_json cfg))) w)
  else add_log (LogErrSavingConfig OSError) w.

(** The bot after a reply to the sender of [update], and after a line of
    the log. *)
Definition replied (update : Update) (r : Reply) (s : St) : St :=
  set_world (add_reply (effective_user update, r) (world s)) s.

Definition logged (ev : LogEvent) (s : St) : St :=
  set_world (add_log ev (world s)) s.

(** The item URLs a playlist resolves to, and what resolving it logs. *)
Definition resolved (env : Env) (playlist_url : string) : list string :=
  match extract_playlist env playlist_url with
  | Ret (WithEntries entries) =>
      foldl (λ video_urls entry,
               match entry with
               | EntryDict (Some url) => video_urls ++ [url]
               | _ => video_urls
               end) [] entries
  | Ret WithoutEntries | Raise _ => []
  end.

Definition resolve_logged (env : Env) (playlist_url : string) (w : World) : World :=
  match extract_playlist env playlist_url with
  | Ret (WithEntries _) => w
  | Ret WithoutEntries => add_log (LogNoVideosInPlaylist playlist_url) w
  | Raise e => add_log (LogErrExtractingPlaylist playlist_url e) w
  end.

(** [add_playlist] takes a URL when it has the shape of a playlist URL, is
    not in the list yet and resolves to at least one item. *)
Definition playlist_shaped (playlist_url : string) : bool :=
  is_substring "youtube.com/playlist" playlist_url
  || is_substring "youtu.be/playlist" playlist_url.

Definition accepted (env : Env) (playlist_url : string) (l : list string) : bool :=
  playlist_shaped playlist_url
  && negb (bool_decide (playlist_url ∈ l))
  && match resolved env playlist_url with [] => false | _ => true end.

(** The invariant of the settings record: an enabled bot has a playlist. *)
Definition enabled_has_playlists (cfg : Settings) : Prop :=
  enabled cfg = true → playlists cfg ≠ [].

(** The directory that [mkdtemp] makes next, the bot after that directory
    holds [files], and the path of a file in it. *)
Definition scratch (s : St) : nat := fresh (dom (tmp (world s))).

Definition made_scratch (files : list File) (s : St) : St :=
  set_world (set_tmp (<[scratch s := files]> (tmp (world s))) (world s)) s.

Definition scratch_path (s : St) (f : File) : Path :=
  {| pdir := scratch s; pname := fname f |}.

(** The size test of the fetcher on a file, under the current record. *)
Definition within_limit (f : File) (s : St) : bool :=
  Qle_bool (size_mb (fsize f)) (max_file_size_mb (config s)).

(** A directory listing without the entries called [name]. *)
Definition remove_named (name : string) (files : list File) : list File :=
  List.filter (λ g, negb (String.eqb (fname g) name)) files.

(** What yt-dlp does for the video that [download_and_convert] is given. *)
Definition download_of (env : Env) (video_url download_format : string) : Download :=
  ydl_download env video_url (String.eqb download_format "audio").

(** What a fetch leaves of the bot: everything but the scratch directories
    and the log. *)
Definition same_bot_but_scratch (s s' : St) : Prop :=
  config s' = config s ∧ scheduler s' = scheduler s ∧ user_id s' = user_id s ∧
  config_file (world s') = config_file (world s) ∧
  disk_writable (world s') = disk_writable (world s) ∧
  sent (world s') = sent (world s) ∧
  replies (world s') = replies (world s).

(** A computation maintains [P] when it leads from a bot with [P] to a bot
    with [P], whether it returns or raises. *)
Definition maintains {A} (P : St → Prop) (m : M St A) : Prop :=
  ∀ s, P s → P (snd (m s)).

(** The job that [setup_scheduler] installs. *)
Definition send_music_job (minutes : Z) : Sched.Job :=
  {| Sched.job_id := "send_music_job"; Sched.job_minutes := minutes |}.

(** The scheduler of a bot that only [setup_scheduler] and [disable] have
    driven: no job waits, and the job store is empty or holds the one job of
    a running scheduler. *)
Definition sched_ok (sc : Sched.Scheduler) : Prop :=
  Sched.pending_jobs sc = [] ∧
  (Sched.jobstore sc = [] ∨
   Sched.running sc = true ∧ ∃ minutes, Sched.jobstore sc = [send_music_job minutes]).

(** [setup_scheduler] builds a job exactly under this test of the record. *)
Definition wants_job (cfg : Settings) : bool :=
  enabled cfg && match playlists cfg with [] => false | _ => true end.

(** Whether [IntervalTrigger(minutes=n)] can be built at the time of [env]:
    the interval is a [timedelta] and the first run falls before the end of
    the year 9999. *)
Definition trigger_fits (env : Env) (minutes : Z) : bool :=
  match IntervalTrigger (now env) minutes with
  | Ret _ => true
  | Raise _ => false
  end.

(** [setup_scheduler] installs a job when the record wants one and the
    trigger of its interval can be built. *)
Definition installs_job (env : Env) (cfg : Settings) : bool :=
  wants_job cfg && trigger_fits env (interval_minutes cfg).

(** ** Samples *)

(** A playlist URL, and the recipient (user 7) as the sender of an update. *)
Definition sample_playlist : string := "https://youtube.com/playlist?list=PL1".

Definition recipient : Update := {| effective_user := 7 |}.

(** A sample bot: the recipient is user 7, one playlist is configured. *)
Definition sample_bot (is_enabled : bool) (max_mb : Q) : St :=
  {| user_id := 7;
     config := {| playlists := [sample_playlist]; interval_minutes := 1;
                  download_format := "audio"; max_file_size_mb := max_mb;
                  enabled := is_enabled |};
     scheduler := Sched.new_scheduler;
     world := empty_world |}.

(** The clock of the samples: 2026-01-01 00:00:00, which is 739616 days
    after [datetime.min]. *)
Definition sample_now : Z := 739616 * 86400000000.

(** Python's [int] on the decimal strings of the samples. *)
Definition sample_int (s : string) : option Z :=
  if String.eqb s "1" then Some 1
  else if String.eqb s "5" then Some 5
  else None.

(** Sample collaborators: the playlist holds one video, whose download
    leaves one file of [bytes] bytes; the send succeeds. *)
Definition sample_env (bytes : Z) : Env :=
  {| extract_playlist := λ _, Ret (WithEntries [EntryDict (Some "https://youtu.be/v1")]);
     ydl_download := λ _ _, {| dl_extract_error := None;
                               dl_files := [{| fname := "song.mp3"; fsize := bytes |}];
                               dl_error := None |};
     draw_playlist := 0;
     draw_video := 0;
     send_error := None;
     py_int := sample_int;
     now := sample_now |}.

(** Sample collaborators whose download leaves two files, [first] listed
    before a second, larger one. *)
Definition two_files_env (first : File) : Env :=
  {| extract_playlist := λ _, Ret (WithEntries [EntryDict (Some "https://youtu.be/v1")]);
     ydl_download := λ _ _, {| dl_extract_error := None;
                               dl_files := [first;
                                            {| fname := "cover.webp";
                                               fsize := 104857600 |}];
                               dl_error := None |};
     draw_playlist := 0;
     draw_video := 0;
     send_error := None;
     py_int := sample_int;
     now := sample_now |}.

(** Sample collaborators whose download raises after it has written a
    partial file. *)
Definition failing_download_env : Env :=
  {| extract_playlist := λ _, Ret (WithEntries [EntryDict (Some "https://youtu.be/v1")]);
     ydl_download := λ _ _, {| dl_extract_error := None;
                               dl_files := [{| fname := "song.mp3.part";
                                               fsize := 1048576 |}];
                               dl_error := Some DownloadError |};
     draw_playlist := 0;
     draw_video := 0;
     send_error := None;
     py_int := sample_int;
     now := sample_now |}.

(** Sample collaborators whose playlist holds two videos: the first
    downloads as a file of 3 MB, the second, which is the one drawn, as a file
    of 15 MB. *)
Definition mixed_playlist_env : Env :=
  {| extract_playlist :=
       λ _, Ret (WithEntries [EntryDict (Some "https://youtu.be/v1");
                              EntryDict (Some "https://youtu.be/v2")]);
     ydl_download :=
       λ video_url _,
         {| dl_extract_error := None;
            dl_files :=
              if String.eqb video_url "https://youtu.be/v2"
              then [{| fname := "long.mp3"; fsize := 15728640 |}]
              else [{| fname := "song.mp3"; fsize := 3145728 |}];
            dl_error := None |};
     draw_playlist := 0;
     draw_video := 1;
     send_error := None;
     py_int := sample_int;
     now := sample_now |}.

(** The recipient adds the sample playlist, enables the bot and removes
    playlist number 1, on a bot of a first run. *)
Definition add_enable_remove : list (Env * Event) :=
  [ (sample_env 0, Inbound "add_playlist" recipient {| args := [sample_playlist] |});
    (sample_env 0, Inbound "enable" recipient {| args := [] |});
    (sample_env 0, Inbound "remove_playlist" recipient {| args := ["1"] |}) ].

Definition after_add_enable_remove : St :=
  run_events add_enable_remove (first_run 7 empty_world).


(** ** Notions used by the further properties *)

(** The [webpage_url] of an entry that is a dict and has one. *)
Definition entry_url (entry : Entry) : option string :=
  match entry with
  | EntryDict (Some url) => Some url
  | _ => None
  end.

(** Sample collaborators whose playlist has five entries, two of them
    without a URL. *)
Definition gappy_playlist_env : Env :=
  {| extract_playlist :=
       λ _, Ret (WithEntries [EntryDict (Some "https://youtu.be/v1"); EntryNone;
                              EntryDict None; EntryDict (Some "https://youtu.be/v2");
                              EntryDict (Some "https://youtu.be/v3")]);
     ydl_download := λ _ _, {| dl_extract_error := None; dl_files := [];
                               dl_error := None |};
     draw_playlist := 0;
     draw_video := 0;
     send_error := None;
     py_int := sample_int;
     now := sample_now |}.

(** Sample collaborators whose playlist cannot be reached. *)
Definition unreachable_playlist_env : Env :=
  {| extract_playlist := λ _, Raise DownloadError;
     ydl_download := λ _ _, {| dl_extract_error := None; dl_files := [];
                               dl_error := None |};
     draw_playlist := 0;
     draw_video := 0;
     send_error := None;
     py_int := sample_int;
     now := sample_now |}.

(** A second and a third playlist URL. *)
Definition second_playlist : string := "https://youtube.com/playlist?list=PL2".
Definition third_playlist : string := "https://youtu.be/playlist?list=PL3".

(** A sample bot with three playlists. *)
Definition three_playlists_bot : St :=
  {| user_id := 7;
     config := {| playlists := [sample_playlist; second_playlist; third_playlist];
                  interval_minutes := 1; download_format := "audio";
                  max_file_size_mb := 50; enabled := false |};
     scheduler := Sched.new_scheduler;
     world := empty_world |}.

(** Python's [int] on a non-empty string of ASCII decimal digits, which is
    all the further samples give it; [None] on any other string. *)
Fixpoint decimal_digits (s : string) (acc : Z) : option Z :=
  match s with
  | EmptyString => Some acc
  | String c rest =>
      let n := Z.of_nat (nat_of_ascii c) in
      if (48 <=? n) && (n <=? 57) then decimal_digits rest (10 * acc + (n - 48))
      else None
  end.

Definition decimal_int (s : string) : option Z :=
  match s with
  | EmptyString => None
  | _ => decimal_digits s 0
  end.

(** The sample collaborators with that [int]. *)
Definition decimal_env (bytes : Z) : Env :=
  {| extract_playlist := extract_playlist (sample_env bytes);
     ydl_download := ydl_download (sample_env bytes);
     draw_playlist := 0;
     draw_video := 0;
     send_error := None;
     py_int := decimal_int;
     now := sample_now |}.



(** The bot after [setup_scheduler], from a scheduler that is [sched_ok]:
    running with the one job of the current interval when the record wants a
    job and the trigger could be built, without a job otherwise. *)
Definition rescheduled (env : Env) (s : St) : St :=
  if installs_job env (config s)
  then logged (LogSchedulerStarted (interval_minutes (config s)))
         (set_scheduler
            {| Sched.running := true; Sched.pending_jobs := [];
               Sched.jobstore := [send_music_job (interval_minutes (config s))] |} s)
  else set_scheduler
         {| Sched.running := Sched.running (scheduler s); Sched.pending_jobs := [];
            Sched.jobstore := [] |} s.

(** The bot after the record became [cfg] and was saved. *)
Definition saved_as (cfg : Settings) (s : St) : St :=
  set_world (persist cfg (world s)) (set_config cfg s).

(** The sample bot, enabled, after start-up: its scheduler runs the one
    job. *)
Definition running_bot : St :=
  snd (setup_scheduler (sample_env 0) (sample_bot true 50)).

(** A record whose interval and format are what the commands accept, with
    the size limit [limit]. *)
Definition settings_valid (limit : Q) (cfg : Settings) : Prop :=
  1 ≤ interval_minutes cfg ∧
  (download_format cfg = "audio" ∨ download_format cfg = "video") ∧
  max_file_size_mb cfg = limit.

(** The scheduler agrees with the record: it is [sched_ok], and the job it
    holds, if any, is the job of the record's interval on an enabled bot. *)
Definition job_follows_settings (s : St) : Prop :=
  sched_ok (scheduler s) ∧
  (Sched.jobstore (scheduler s) = [] ∨
   enabled (config s) = true ∧
   Sched.jobstore (scheduler s) = [send_music_job (interval_minutes (config s))]).

(** A longer run of the recipient: playlists added and removed, formats and
    intervals set (some refused), the bot enabled and fired. *)
Definition busy_run : list (Env * Event) :=
  [ (decimal_env 3145728, Startup);
    (decimal_env 3145728, Inbound "add_playlist" recipient {| args := [sample_playlist] |});
    (decimal_env 3145728, Inbound "set_interval" recipient {| args := ["0"] |});
    (decimal_env 3145728, Inbound "set_format" recipient {| args := ["flac"] |});
    (decimal_env 3145728, Inbound "enable" recipient {| args := [] |});
    (decimal_env 3145728, Inbound "set_interval" recipient {| args := ["30"] |});
    (decimal_env 3145728, Inbound "set_format" recipient {| args := ["VIDEO"] |});
    (decimal_env 3145728, Fire);
    (decimal_env 3145728, Inbound "send_now" recipient {| args := [] |}) ].

(** The message a send adds. *)
Definition delivery_of (kind : Format) (file_path : Path) (video_url : string) (s : St)
  : Delivery :=
  {| d_kind := kind; d_chat := user_id s; d_file := file_path; d_url := video_url |}.

(** The two blocks of the cycle that follow a fetch that returned a file:
    the [try] block that sends it, with its [except] clause, and the
    [finally] block that cleans up. *)
Definition send_file (env : Env) (context : option Context) (file_path : Path)
    (video_url : string) : M St unit :=
  try_except
    (fmt' <- gets (λ s, download_format (config s)) ;;
     (if String.eqb fmt' "audio"
      then bot_send env context Audio file_path video_url
      else bot_send env context Video file_path video_url) ;;;
     in_world (logger LogSentFile))
    (λ e, in_world (logger (LogErrSending e))).

Definition clean_up (file_path : Path) : M St unit :=
  try_except
    (in_world (os_remove file_path) ;;;
     let temp_dir := pdir file_path in
     dex <- in_world (dir_exists temp_dir) ;;
     (if dex then
        names <- in_world (listdir temp_dir) ;;
        match names with
        | [] => in_world (os_rmdir temp_dir)
        | _ :: _ => ret tt
        end
      else ret tt) ;;;
     in_world (logger LogCleanedUp))
    (λ e, in_world (logger (LogErrCleaningUp e))).

(** The kind of message the format of the record asks for. *)
Definition kind_of (s : St) : Format :=
  if String.eqb (download_format (config s)) "audio" then Audio else Video.

(** What a part of a cycle other than the send leaves of the bot. *)
Definition same_outbox (s0 s : St) : Prop :=
  sent (world s) = sent (world s0) ∧ user_id s = user_id s0 ∧
  config s = config s0 ∧ scheduler s = scheduler s0.

(** A world computation that leaves the messages sent alone. *)
Definition keeps_sent {A} (m : M World A) : Prop :=
  ∀ w, sent (snd (m w)) = sent w.

(** What the cycle sends, if it sends: to the bot's user, as the format of
    the record says, a video of one of the record's playlists. *)
Definition cycle_delivery (env : Env) (s : St) (d : Delivery) : Prop :=
  d_chat d = user_id s ∧
  d_kind d = kind_of s ∧
  ∃ playlist_url, playlist_url ∈ playlists (config s) ∧
                  d_url d ∈ resolved env playlist_url.

(** Whether a loaded value "contains" every key of the default record, as
    the merge loop of [load_config] asks it ([key in config]). *)
Definition holds_all_keys (v : json) : bool :=
  forallb (λ item, match py_contains v (fst item) with
                   | Ret true => true
                   | _ => false
                   end) ConfigStore.default_items.

(** The sender of an inbound event is somebody else than the bot's user;
    start-up and firings have no sender. *)
Definition from_stranger (uid : Z) (ev : Event) : Prop :=
  match ev with
  | Inbound _ update _ => effective_user update ≠ uid
  | Startup | Fire => True
  end.

(** A settings file that holds the five key names in a JSON array. *)
Definition key_names_file : World :=
  {| config_file :=
       Some (JsonText (JArr [JStr "playlists"; JStr "interval_minutes";
                             JStr "download_format"; JStr "max_file_size_mb";
                             JStr "enabled"]));
     disk_writable := true; tmp := ∅; sent := []; replies := []; log := [] |}.

(** A stranger (user 8) tries every command that changes the record, around
    a start-up and a firing. *)
Definition stranger : Update := {| effective_user := 8 |}.

Definition stranger_run : list (Env * Event) :=
  [ (decimal_env 3145728, Startup);
    (decimal_env 3145728, Inbound "add_playlist" stranger {| args := [second_playlist] |});
    (decimal_env 3145728, Inbound "remove_playlist" stranger {| args := ["1"] |});
    (decimal_env 3145728, Inbound "set_interval" stranger {| args := ["9"] |});
    (decimal_env 3145728, Inbound "set_format" stranger {| args := ["video"] |});
    (decimal_env 3145728, Inbound "disable" stranger {| args := [] |});
    (decimal_env 3145728, Fire) ].

(** * Properties *)

(** Unfolds the monad's combinators, so that a run computes. *)
Ltac unfold_monad :=
  unfold logger, reply_text, in_world, in_scheduler in *;
  unfold bind, ret, raise, gets, modify, try_except, try_finally, lift_result,
    zoom in *.

(** Rewrites with a fact about the state wherever reduction uncovers it. *)
Ltac rewrite_state H := repeat (rewrite H; cbn beta iota).

(** ** ConfigStore *)

Section ConfigStoreFacts.
Import ConfigStore.

(** The merge loop on a dict is the union that prefers the loaded keys. *)
Lemma backfill_obj items (m : gmap string json) :
  backfill items (JObj m) = Ret (JObj (m ∪ list_to_map items)).
Proof.
  revert m. induction items as [|[key value] rest IH]; intros m; simpl.
  - by rewrite (right_id_L ∅ (∪)).
  - case_bool_decide as Hk; rewrite IH; do 2 f_equal; apply map_eq; intros i;
      rewrite !lookup_union, !lookup_insert.
    + destruct Hk as [x Hx].
      case_decide; subst; [rewrite Hx|]; by destruct (list_to_map rest !! i).
    + apply eq_None_not_Some in Hk.
      case_decide; subst; [rewrite Hk|]; by destruct (list_to_map rest !! i).
Qed.

Lemma backfilled_lookup (m : gmap string json) key :
  (m ∪ default_config) !! key =
    match m !! key with
    | Some v => Some v
    | None => default_config !! key
    end.
Proof.
  rewrite lookup_union. destruct (m !! key), (default_config !! key); done.
Qed.

Lemma default_truthy : truthy (JObj default_config) = true.
Proof.
  unfold truthy. rewrite bool_decide_false; [done|].
  intros Heq. by apply (f_equal (λ m : gmap string json, m !! "enabled")) in Heq.
Qed.

Lemma save_config_returns config self_config (w : World) :
  ∃ w', save_config config self_config w = (Ret tt, w').
Proof.
  unfold save_config, write_json. unfold_monad.
  destruct config as [c|], self_config as [sc|]; simpl;
    try destruct (truthy c); simpl; destruct (disk_writable w); simpl; eauto.
Qed.

Lemma load_config_returns (w : World) :
  ∃ cfg w', load_config w = (Ret cfg, w').
Proof.
  unfold load_config, try_except.
  match goal with |- context [match ?b w with _ => _ end] => destruct (b w) as [[cfg|e] w'] end.
  - eauto.
  - unfold_monad. simpl. eauto.
Qed.

Lemma load_config_record (w : World) (m : gmap string json) :
  config_file w = Some (JsonText (JObj m)) →
  load_config w = (Ret (JObj (m ∪ default_config)), w).
Proof.
  intros Hf. unfold load_config, path_exists, read_json. unfold_monad.
  rewrite_state Hf. by rewrite backfill_obj.
Qed.

Lemma load_config_missing (w : World) :
  config_file w = None →
  load_config w =
    (Ret (JObj default_config),
     if disk_writable w
     then add_log LogConfigSaved
            (set_config_file (Some (JsonText (JObj default_config))) w)
     else add_log (LogErrSavingConfig OSError) w).
Proof.
  intros Hf. unfold load_config, path_exists, save_config, write_json.
  unfold_monad. rewrite_state Hf. rewrite default_truthy. cbn beta iota.
  by destruct (disk_writable w).
Qed.

Lemma load_config_read_error (w : World) :
  config_file w = Some Unreadable ∨ config_file w = Some Garbage →
  ∃ e, load_config w =
         (Ret (JObj default_config), add_log (LogErrLoadingConfig e) w).
Proof.
  intros [Hf|Hf]; unfold load_config, path_exists, read_json; unfold_monad;
    rewrite_state Hf; simpl; eauto.
Qed.

(** A loaded value that is not a dict: a number, a boolean or [null] is a
    [TypeError] of the merge loop, and the default record is returned. *)
Lemma load_config_scalar (w : World) v :
  config_file w = Some (JsonText v) →
  (v = JNull ∨ (∃ b, v = JBool b) ∨ (∃ q, v = JNum q)) →
  load_config w =
    (Ret (JObj default_config), add_log (LogErrLoadingConfig TypeError) w).
Proof.
  intros Hf Hv. unfold load_config, path_exists, read_json. unfold_monad.
  rewrite_state Hf. by destruct Hv as [->|[[b ->]|[q ->]]].
Qed.

End ConfigStoreFacts.

(** C5. [load_config] returns the persisted record when the settings file
    holds one, every key the record lacks taken from the defaults; when there
    is no file it writes the default record (if the file can be written) and
    returns it; when the file cannot be read or is not JSON it returns the
    default record; and neither [load_config] nor [save_config] ever raises. *)
Theorem config_store_contract (w : World) :
  (∀ m : gmap string json,
      config_file w = Some (JsonText (JObj m)) →
      ∃ m' : gmap string json,
        ConfigStore.load_config w = (Ret (JObj m'), w) ∧
        ∀ key, m' !! key = match m !! key with
                           | Some v => Some v
                           | None => ConfigStore.default_config !! key
                           end) ∧
  (config_file w = None →
   ∃ w', ConfigStore.load_config w = (Ret (JObj ConfigStore.default_config), w') ∧
         (disk_writable w = true →
          config_file w' = Some (JsonText (JObj ConfigStore.default_config)))) ∧
  (config_file w = Some Unreadable ∨ config_file w = Some Garbage →
   ∃ w', ConfigStore.load_config w = (Ret (JObj ConfigStore.default_config), w') ∧
         config_file w' = config_file w) ∧
  (∃ cfg w', ConfigStore.load_config w = (Ret cfg, w')) ∧
  (∀ config self_config,
      ∃ w', ConfigStore.save_config config self_config w = (Ret tt, w')).
Proof.
  repeat split.
  - intros m Hf. exists (m ∪ ConfigStore.default_config). split.
    + by apply load_config_record.
    + apply backfilled_lookup.
  - intros Hf. eexists. split; [by apply load_config_missing|].
    by intros ->.
  - intros Hf. destruct (load_config_read_error w Hf) as [e He].
    eexists. split; [exact He|done].
  - apply load_config_returns.
  - intros. apply save_config_returns.
Qed.

(** The contract at a settings file that holds only [enabled]: the loaded
    key is kept and a missing one comes from the defaults. *)
Lemma config_store_contract_witness :
  let w := {| config_file := Some (JsonText (JObj {[ "enabled" := JBool true ]}));
              disk_writable := false; tmp := ∅; sent := []; replies := [];
              log := [] |} in
  ∃ m' : gmap string json,
    ConfigStore.load_config w = (Ret (JObj m'), w) ∧
    m' !! "enabled" = Some (JBool true) ∧
    m' !! "download_format" = Some (JStr "audio").
Proof.
  intros w.
  destruct (config_store_contract w) as [Hrecord _].
  destruct (Hrecord _ eq_refl) as [m' [Hload Hkeys]].
  exists m'. split; [exact Hload|].
  rewrite !Hkeys. split; reflexivity.
Defined.

(** ** Saving from a handler *)

Lemma settings_json_truthy cfg : truthy (settings_json cfg) = true.
Proof.
  unfold truthy, settings_json. rewrite bool_decide_false; [done|].
  intros Heq. by apply (f_equal (λ m : gmap string json, m !! "enabled")) in Heq.
Qed.

(** [self.save_config()] returns, and the world is [persist]ed. *)
Lemma save_config_run (s : St) :
  save_config s = (Ret tt, set_world (persist (config s) (world s)) s).
Proof.
  unfold save_config, ConfigStore.save_config, ConfigStore.write_json, persist.
  unfold_monad. cbn beta iota.
  by destruct (disk_writable (world s)).
Qed.

Lemma persist_writable cfg w :
  disk_writable w = true →
  config_file (persist cfg w) = Some (JsonText (settings_json cfg)).
Proof. unfold persist. by intros ->. Qed.

(** ** Authorization *)

Lemma check_user_permission_denied update context (s : St) :
  effective_user update ≠ user_id s →
  check_user_permission update context s =
    (Ret false, replied update RNotAuthorized s).
Proof.
  intros Hne. unfold check_user_permission. unfold_monad.
  by rewrite (proj2 (Z.eqb_neq _ _) Hne).
Qed.

Lemma check_user_permission_granted update context (s : St) :
  effective_user update = user_id s →
  check_user_permission update context s = (Ret true, s).
Proof.
  intros Heq. unfold check_user_permission. unfold_monad.
  by rewrite (proj2 (Z.eqb_eq _ _) Heq).
Qed.

(** The recipient's own commands reach the handler as they are. *)
Lemma authorized_command_granted handler_func update context (s : St) :
  effective_user update = user_id s →
  authorized_command handler_func update context s = handler_func update context s.
Proof.
  intros Heq. unfold authorized_command, bind.
  rewrite check_user_permission_granted by done.
  by destruct (handler_func update context s) as [[[]|e] s'].
Qed.

Lemma registered_wrapped env command handler :
  (command, handler) ∈ registered env →
  ∃ handler_func, handler = authorized_command handler_func.
Proof.
  unfold registered. intros Hin.
  apply list_elem_of_fmap in Hin as [[c h] [Heq _]].
  injection Heq as -> ->. eauto.
Qed.

(** C8. A command whose sender is not the configured recipient never runs
    the wrapped handler: whatever the handler is, the call returns with the
    bot unchanged (settings record, settings file, scheduler) but for the
    rejection replied to the caller; and every handler the bot registers is
    wrapped this way. *)
Theorem unauthorized_command_rejected env update context (s : St) :
  effective_user update ≠ user_id s →
  (∀ handler_func : Handler,
      authorized_command handler_func update context s =
        (Ret tt, replied update RNotAuthorized s)) ∧
  (∀ command handler,
      (command, handler) ∈ registered env →
      handler update context s = (Ret tt, replied update RNotAuthorized s)) ∧
  config (replied update RNotAuthorized s) = config s ∧
  config_file (world (replied update RNotAuthorized s)) = config_file (world s) ∧
  replies (world (replied update RNotAuthorized s)) =
    replies (world s) ++ [(effective_user update, RNotAuthorized)].
Proof.
  intros Hne.
  assert (Hwrap : ∀ handler_func : Handler,
             authorized_command handler_func update context s =
               (Ret tt, replied update RNotAuthorized s)).
  { intros handler_func. unfold authorized_command, bind.
    by rewrite check_user_permission_denied. }
  repeat split; [exact Hwrap|].
  intros command handler Hin.
  destruct (registered_wrapped env command handler Hin) as [handler_func ->].
  apply Hwrap.
Qed.

(** User 8 sends [/enable] to the sample bot, whose recipient is user 7. *)
Lemma unauthorized_command_rejected_witness :
  let s := sample_bot false 50 in
  let update := {| effective_user := 8 |} in
  let context := {| args := [] |} in
  authorized_command (enable_command (sample_env 0)) update context s =
    (Ret tt, replied update RNotAuthorized s) ∧
  enabled (config (snd (authorized_command (enable_command (sample_env 0))
                          update context s))) = false.
Proof.
  intros s update context.
  destruct (unauthorized_command_rejected (sample_env 0) update context s) as [Hwrap _].
  { discriminate. }
  split; [apply Hwrap|]. by rewrite Hwrap.
Defined.

(** ** [set_format] *)

Lemma format_choice_spec (format_choice : string) :
  bool_decide (format_choice ∈ ["audio"; "video"]) = true ↔
  format_choice = "audio" ∨ format_choice = "video".
Proof.
  rewrite bool_decide_eq_true, !elem_of_cons, elem_of_nil. tauto.
Qed.

(** C10. [set_format] reads its argument without regard to case: when the
    lowercased argument is [audio] or [video] the record's [download_format]
    becomes the lowercased argument and the record is saved; any other
    argument is rejected and nothing changes but the reply. *)
Theorem set_format_case_insensitive update arg rest (s : St) :
  let context := {| args := arg :: rest |} in
  let cfg' := set_download_format (lower arg) (config s) in
  (lower arg = "audio" ∨ lower arg = "video" →
   set_format_command update context s =
     (Ret tt,
      replied update (RFormatSet (lower arg))
        (set_world (persist cfg' (world s)) (set_config cfg' s))) ∧
   download_format (config (snd (set_format_command update context s))) = lower arg ∧
   (disk_writable (world s) = true →
    config_file (world (snd (set_format_command update context s))) =
      Some (JsonText (settings_json cfg')))) ∧
  (¬ (lower arg = "audio" ∨ lower arg = "video") →
   set_format_command update context s = (Ret tt, replied update RBadFormat s)).
Proof.
  intros context cfg'. split.
  - intros Hok.
    assert (Hrun : set_format_command update context s =
                     (Ret tt,
                      replied update (RFormatSet (lower arg))
                        (set_world (persist cfg' (world s)) (set_config cfg' s)))).
    { unfold set_format_command. simpl.
      rewrite (proj2 (format_choice_spec _) Hok). simpl.
      unfold bind at 1. unfold modify at 1. unfold bind at 1.
      by rewrite save_config_run. }
    rewrite Hrun. repeat split.
    simpl. intros Hw. by rewrite persist_writable.
  - intros Hbad. unfold set_format_command. simpl.
    destruct (bool_decide (lower arg ∈ ["audio"; "video"])) eqn:Hd; [|done].
    by apply format_choice_spec in Hd.
Qed.

(** [/set_format AUDIO] and [/set_format Video] are taken, [/set_format mp3]
    is not. *)
Lemma set_format_case_insensitive_witness :
  let s := sample_bot false 50 in
  let update := {| effective_user := 7 |} in
  download_format (config (snd (set_format_command update {| args := ["AUDIO"] |} s)))
    = "audio" ∧
  download_format (config (snd (set_format_command update {| args := ["Video"] |} s)))
    = "video" ∧
  config_file (world (snd (set_format_command update {| args := ["Video"] |} s)))
    = Some (JsonText (settings_json (set_download_format "video" (config s)))) ∧
  set_format_command update {| args := ["mp3"] |} s =
    (Ret tt, replied update RBadFormat s).
Proof.
  intros s update. split; [|split; [|split]].
  - apply (set_format_case_insensitive update "AUDIO" [] s). by left.
  - apply (set_format_case_insensitive update "Video" [] s). by right.
  - apply (set_format_case_insensitive update "Video" [] s); [by right|done].
  - apply (set_format_case_insensitive update "mp3" [] s).
    intros [H|H]; discriminate H.
Defined.

(** ** PlaylistResolver *)

(** Resolving never raises, and touches nothing but the log. *)
Lemma get_playlist_videos_run env playlist_url (s : St) :
  get_playlist_videos env playlist_url s =
    (Ret (resolved env playlist_url),
     set_world (resolve_logged env playlist_url (world s)) s).
Proof.
  unfold get_playlist_videos, resolved, resolve_logged. unfold_monad.
  destruct (extract_playlist env playlist_url) as [[entries|]|e]; destruct s; done.
Qed.

(** ** Running a computation step by step *)

Section Run.
Context {S A B : Type}.
Implicit Types (k : A → M S B) (s : S).

Lemma bind_run (m : M S A) k s a s' :
  m s = (Ret a, s') → bind m k s = k a s'.
Proof. unfold bind. by intros ->. Qed.

Lemma bind_fail (m : M S A) k s e s' :
  m s = (Raise e, s') → bind m k s = (Raise e, s').
Proof. unfold bind. by intros ->. Qed.

Lemma bind_ret (a : A) k s : bind (ret a) k s = k a s.
Proof. done. Qed.

Lemma bind_raise e k s : bind (raise e) k s = (Raise e, s).
Proof. done. Qed.

Lemma bind_gets (f : S → A) k s : bind (gets f) k s = k (f s) s.
Proof. done. Qed.
End Run.

Lemma bind_modify {S B} (f : S → S) (k : unit → M S B) s :
  bind (modify f) k s = k tt (f s).
Proof. done. Qed.

Lemma bind_reply_text {B} update r (k : unit → M St B) s :
  bind (reply_text update r) k s = k tt (replied update r s).
Proof. done. Qed.

Lemma reply_text_run update r s : reply_text update r s = (Ret tt, replied update r s).
Proof. done. Qed.

Lemma bind_logger {B} ev (k : unit → M St B) s :
  bind (in_world (logger ev)) k s = k tt (set_world (add_log ev (world s)) s).
Proof. done. Qed.

Lemma logger_run ev (s : St) :
  in_world (logger ev) s = (Ret tt, set_world (add_log ev (world s)) s).
Proof. done. Qed.

Lemma bind_save_config {B} (k : unit → M St B) s :
  bind save_config k s = k tt (set_world (persist (config s) (world s)) s).
Proof. apply bind_run, save_config_run. Qed.

Lemma bind_get_playlist_videos {B} env url (k : list string → M St B) s :
  bind (get_playlist_videos env url) k s =
    k (resolved env url) (set_world (resolve_logged env url (world s)) s).
Proof. apply bind_run, get_playlist_videos_run. Qed.

Create Rewrite HintDb run.
#[local] Hint Rewrite @bind_ret @bind_raise @bind_gets @bind_modify @bind_reply_text
  @bind_logger @bind_save_config @bind_get_playlist_videos
  reply_text_run logger_run save_config_run get_playlist_videos_run : run.

(** Reduces the projections of an explicit state and the boolean tests. *)
Ltac state_simpl :=
  cbn beta iota delta
    [fst snd config world scheduler user_id set_world set_config set_scheduler
       replied args negb andb orb tmp set_tmp add_log add_sent add_reply
       set_config_file config_file disk_writable sent replies log
       pdir pname fname fsize].

(** Runs the computation in the goal as far as the equations of [run] go. *)
Ltac mrun := repeat (progress (autorewrite with run; state_simpl)).

(** ** [add_playlist] *)

Lemma config_file_resolve_logged env url w :
  config_file (resolve_logged env url w) = config_file w.
Proof. unfold resolve_logged. by destruct (extract_playlist env url) as [[?|]|?]. Qed.

Lemma add_playlist_refused env update playlist_url rest (s : St) :
  accepted env playlist_url (playlists (config s)) = false →
  config (snd (add_playlist_command env update {| args := playlist_url :: rest |} s))
    = config s ∧
  config_file (world (snd (add_playlist_command env update
                             {| args := playlist_url :: rest |} s)))
    = config_file (world s).
Proof.
  unfold accepted, playlist_shaped, add_playlist_command. state_simpl.
  destruct (is_substring "youtube.com/playlist" playlist_url),
    (is_substring "youtu.be/playlist" playlist_url); state_simpl;
    try (intros _; mrun; done).
  all: mrun; destruct (bool_decide (playlist_url ∈ playlists (config s)));
    state_simpl; mrun; try done.
  all: destruct (resolved env playlist_url) eqn:Hr; [|intros; discriminate].
  all: intros _; mrun; simpl; by rewrite config_file_resolve_logged.
Qed.

Lemma add_playlist_accepted env update playlist_url rest (s : St) :
  accepted env playlist_url (playlists (config s)) = true →
  config (snd (add_playlist_command env update {| args := playlist_url :: rest |} s))
    = set_playlists (playlists (config s) ++ [playlist_url]) (config s).
Proof.
  unfold accepted, playlist_shaped, add_playlist_command. state_simpl.
  destruct (is_substring "youtube.com/playlist" playlist_url),
    (is_substring "youtu.be/playlist" playlist_url); state_simpl;
    try (intros; discriminate).
  all: mrun; destruct (bool_decide (playlist_url ∈ playlists (config s)));
    state_simpl; mrun; try (intros; discriminate).
  all: destruct (resolved env playlist_url) eqn:Hr; [intros; discriminate|].
  all: intros _; mrun; done.
Qed.

Lemma accepted_not_member env playlist_url (l : list string) :
  accepted env playlist_url l = true → playlist_url ∉ l.
Proof.
  unfold accepted. intros H.
  apply andb_prop in H as [H _]. apply andb_prop in H as [_ H].
  apply negb_true_iff in H. by apply bool_decide_eq_false in H.
Qed.

Lemma member_not_accepted env playlist_url (l : list string) :
  playlist_url ∈ l → accepted env playlist_url l = false.
Proof.
  intros Hin. destruct (accepted env playlist_url l) eqn:Hacc; [|done].
  by apply accepted_not_member in Hacc.
Qed.

Lemma add_playlist_playlists env update playlist_url rest (s : St) :
  playlists (config (snd (add_playlist_command env update
                            {| args := playlist_url :: rest |} s))) =
    if accepted env playlist_url (playlists (config s))
    then playlists (config s) ++ [playlist_url]
    else playlists (config s).
Proof.
  destruct (accepted env playlist_url (playlists (config s))) eqn:Hacc.
  - by rewrite add_playlist_accepted.
  - by destruct (add_playlist_refused env update playlist_url rest s Hacc) as [-> _].
Qed.

Lemma add_playlist_NoDup env update playlist_url rest (s : St) :
  NoDup (playlists (config s)) →
  NoDup (playlists (config (snd (add_playlist_command env update
                                   {| args := playlist_url :: rest |} s)))).
Proof.
  intros Hnd. rewrite add_playlist_playlists.
  destruct (accepted env playlist_url (playlists (config s))) eqn:Hacc; [|done].
  apply NoDup_app. split; [done|]. split; [|apply NoDup_singleton].
  intros x Hx Hx'. apply list_elem_of_singleton in Hx' as ->.
  by apply accepted_not_member in Hacc.
Qed.

(** ** [setup_scheduler] leaves the rest of the bot alone *)

Lemma setup_scheduler_frame env (s : St) :
  config (snd (setup_scheduler env s)) = config s ∧
  user_id (snd (setup_scheduler env s)) = user_id s ∧
  config_file (world (snd (setup_scheduler env s))) = config_file (world s) ∧
  disk_writable (world (snd (setup_scheduler env s))) = disk_writable (world s) ∧
  tmp (world (snd (setup_scheduler env s))) = tmp (world s) ∧
  sent (world (snd (setup_scheduler env s))) = sent (world s) ∧
  replies (world (snd (setup_scheduler env s))) = replies (world s).
Proof.
  destruct s as [uid cfg [r pending store] w].
  unfold setup_scheduler, Sched.remove_all_jobs, Sched.add_job, Sched.start.
  unfold_monad. simpl.
  destruct r; simpl; destruct (enabled cfg); simpl; try done;
    destruct (playlists cfg); simpl; try done;
    destruct (IntervalTrigger _ _); simpl; try done.
  destruct (Sched.add_pending _ _) as [[store'|e] store'']; done.
Qed.

(** ** [enable] *)

Lemma enable_command_empty env update context (s : St) :
  playlists (config s) = [] →
  enable_command env update context s = (Ret tt, replied update RCannotEnable s).
Proof.
  intros Hnone. unfold enable_command. mrun. by rewrite Hnone.
Qed.

Lemma enable_command_config env update context (s : St) :
  playlists (config s) ≠ [] →
  config (snd (enable_command env update context s)) = set_enabled true (config s).
Proof.
  intros Hsome. unfold enable_command. mrun.
  destruct (playlists (config s)) eqn:Hp; [done|]. mrun.
  match goal with
  | |- context [bind (setup_scheduler env) ?k ?s0] =>
      pose proof (setup_scheduler_frame env s0) as (Hcfg & _); unfold bind at 1;
      destruct (setup_scheduler env s0) as [[[]|e] s'] eqn:Hsetup
  end; simpl in Hcfg; mrun; simpl; by rewrite Hcfg.
Qed.

(** ** Scratch directories, step by step *)

Lemma bind_assoc {S A B C} (m : M S A) (k1 : A → M S B) (k2 : B → M S C) s :
  bind (bind m k1) k2 s = bind m (λ a, bind (k1 a) k2) s.
Proof. unfold bind. by destruct (m s) as [[a|e] s']. Qed.

Section ScratchRun.
Context {B : Type}.

Lemma bind_mkdtemp (k : nat → M St B) s :
  bind (in_world mkdtemp) k s =
    k (fresh (dom (tmp (world s))))
      (set_world (set_tmp (<[fresh (dom (tmp (world s))) := []]> (tmp (world s)))
                          (world s)) s).
Proof. done. Qed.

Lemma bind_write_files d files (k : unit → M St B) s :
  bind (in_world (write_files d files)) k s =
    k tt (set_world (set_tmp (alter (λ old, old ++ files) d (tmp (world s)))
                             (world s)) s).
Proof. done. Qed.

Lemma bind_listdir d files (k : list string → M St B) s :
  tmp (world s) !! d = Some files →
  bind (in_world (listdir d)) k s = k (fname <$> files) s.
Proof.
  intros Hd. unfold listdir. unfold_monad. rewrite Hd. by destruct s.
Qed.

Lemma bind_getsize p f (k : Z → M St B) s :
  find_file p (tmp (world s)) = Some f →
  bind (in_world (getsize p)) k s = k (fsize f) s.
Proof.
  intros Hf. unfold getsize. unfold_monad. rewrite Hf. by destruct s.
Qed.

Lemma bind_file_exists p (k : bool → M St B) s :
  bind (in_world (file_exists p)) k s =
    k (match find_file p (tmp (world s)) with Some _ => true | None => false end) s.
Proof. unfold file_exists. unfold_monad. by destruct s. Qed.

Lemma bind_dir_exists d (k : bool → M St B) s :
  bind (in_world (dir_exists d)) k s =
    k (match tmp (world s) !! d with Some _ => true | None => false end) s.
Proof. unfold dir_exists. unfold_monad. by destruct s. Qed.

Lemma bind_os_remove p f (k : unit → M St B) s :
  find_file p (tmp (world s)) = Some f →
  bind (in_world (os_remove p)) k s =
    k tt (set_world
            (set_tmp (alter (List.filter (λ g, negb (String.eqb (fname g) (pname p))))
                            (pdir p) (tmp (world s)))
                     (world s)) s).
Proof.
  intros Hf. unfold os_remove. unfold_monad. by rewrite Hf.
Qed.

Lemma bind_os_rmdir d (k : unit → M St B) s :
  tmp (world s) !! d = Some [] →
  bind (in_world (os_rmdir d)) k s =
    k tt (set_world (set_tmp (delete d (tmp (world s))) (world s)) s).
Proof.
  intros Hd. unfold os_rmdir. unfold_monad. by rewrite Hd.
Qed.

End ScratchRun.

Lemma find_file_head d name bytes rest (t : gmap nat (list File)) :
  find_file {| pdir := d; pname := name |}
            (<[d := {| fname := name; fsize := bytes |} :: rest]> t)
    = Some {| fname := name; fsize := bytes |}.
Proof.
  unfold find_file. simpl. rewrite lookup_insert_eq. simpl.
  by rewrite String.eqb_refl.
Qed.

(** ** MediaFetcher *)

(** The fetch on a download that raised no error and left files: the first
    listed file decides. *)
Lemma download_and_convert_files env video_url fmt (s : St) f rest :
  dl_extract_error (download_of env video_url fmt) = None →
  dl_error (download_of env video_url fmt) = None →
  dl_files (download_of env video_url fmt) = f :: rest →
  download_and_convert env video_url fmt s =
    if within_limit f s
    then (Ret (Some (scratch_path s f)),
          logged (LogDownloaded f) (made_scratch (f :: rest) s))
    else (Ret None,
          logged (LogFileTooLarge f)
            (made_scratch (remove_named (fname f) (f :: rest)) s)).
Proof.
  unfold download_of, within_limit, scratch_path, logged, made_scratch, scratch,
    remove_named.
  intros Hextract Herror Hfiles. unfold download_and_convert, try_except.
  rewrite Hextract, Herror, Hfiles. destruct f as [name bytes].
  rewrite bind_mkdtemp, bind_ret, bind_write_files, bind_ret. state_simpl.
  rewrite alter_insert_eq. cbn [app].
  rewrite (bind_listdir _ ({| fname := name; fsize := bytes |} :: rest))
    by (state_simpl; apply lookup_insert_eq).
  cbn [fmap list_fmap for_return fname]. rewrite !bind_assoc.
  rewrite (bind_getsize _ {| fname := name; fsize := bytes |})
    by (state_simpl; apply find_file_head).
  rewrite ?bind_assoc, bind_gets. state_simpl.
  destruct (Qle_bool (size_mb bytes) (max_file_size_mb (config s))).
  - rewrite ?bind_assoc, bind_logger, !bind_ret. state_simpl.
    by destruct s.
  - rewrite ?bind_assoc, bind_logger, ?bind_assoc.
    rewrite (bind_os_remove _ {| fname := name; fsize := bytes |})
      by (state_simpl; apply find_file_head).
    rewrite !bind_ret. state_simpl. rewrite alter_insert_eq.
    by destruct s.
Qed.

(** The fetch on a download that raised no error and left no file. *)
Lemma download_and_convert_no_file env video_url fmt (s : St) :
  dl_extract_error (download_of env video_url fmt) = None →
  dl_error (download_of env video_url fmt) = None →
  dl_files (download_of env video_url fmt) = [] →
  download_and_convert env video_url fmt s = (Ret None, made_scratch [] s).
Proof.
  unfold download_of, made_scratch, scratch.
  intros Hextract Herror Hfiles. unfold download_and_convert, try_except.
  rewrite Hextract, Herror, Hfiles.
  rewrite bind_mkdtemp, bind_ret, bind_write_files, bind_ret. state_simpl.
  rewrite alter_insert_eq. cbn [app].
  rewrite (bind_listdir _ []) by (state_simpl; apply lookup_insert_eq).
  cbn [fmap list_fmap for_return]. rewrite !bind_ret. state_simpl.
  by destruct s.
Qed.

(** The fetch when the metadata extraction raises: nothing was downloaded. *)
Lemma download_and_convert_extract_error env video_url fmt (s : St) e :
  dl_extract_error (download_of env video_url fmt) = Some e →
  download_and_convert env video_url fmt s =
    (Ret None, logged (LogErrDownloading video_url e) (made_scratch [] s)).
Proof.
  unfold download_of, made_scratch, scratch, logged.
  intros Hextract. unfold download_and_convert, try_except.
  rewrite Hextract.
  rewrite bind_mkdtemp, bind_raise. cbn beta iota. rewrite bind_logger. state_simpl.
  by destruct s.
Qed.

(** The fetch when the download raises: what it wrote stays. *)
Lemma download_and_convert_download_error env video_url fmt (s : St) e :
  dl_extract_error (download_of env video_url fmt) = None →
  dl_error (download_of env video_url fmt) = Some e →
  download_and_convert env video_url fmt s =
    (Ret None,
     logged (LogErrDownloading video_url e)
       (made_scratch (dl_files (download_of env video_url fmt)) s)).
Proof.
  unfold download_of, made_scratch, scratch, logged.
  intros Hextract Herror. unfold download_and_convert, try_except.
  rewrite Hextract, Herror.
  rewrite bind_mkdtemp, bind_ret, bind_write_files, bind_raise. cbn beta iota.
  rewrite bind_logger. state_simpl. rewrite alter_insert_eq. cbn [app].
  by destruct s.
Qed.

Lemma remove_named_head f rest :
  fname f ∉ fname <$> rest → remove_named (fname f) (f :: rest) = rest.
Proof.
  intros Hnot. unfold remove_named. cbn [List.filter].
  rewrite String.eqb_refl. cbn [negb].
  induction rest as [|g rest IH]; [done|].
  cbn [List.filter]. rewrite fmap_cons, not_elem_of_cons in Hnot.
  destruct Hnot as [Hne Hrest].
  destruct (String.eqb_spec (fname g) (fname f)) as [Heq|_]; [by rewrite Heq in Hne|].
  cbn [negb]. by rewrite IH.
Qed.

Lemma find_file_removed d name files (t : gmap nat (list File)) :
  find_file {| pdir := d; pname := name |} (<[d := remove_named name files]> t) = None.
Proof.
  unfold find_file, remove_named. cbn [pdir pname]. rewrite lookup_insert_eq.
  induction files as [|g files IH]; [done|].
  cbn [List.filter]. destruct (String.eqb (fname g) name) eqn:Hg; cbn [negb]; [done|].
  cbn [List.find]. by rewrite Hg.
Qed.

(** C9. When the download raises no error, the fetch is decided by the
    first file listed in the scratch directory: no file, and the fetch
    reports absence; otherwise the first file alone is measured and is either
    returned (within the limit) or deleted with absence reported (over it).
    The files listed after it are neither measured nor touched, and two
    downloads that agree on the first file give the same answer and log. *)
Theorem fetch_decided_by_first_file env video_url fmt (s : St) :
  dl_extract_error (download_of env video_url fmt) = None →
  dl_error (download_of env video_url fmt) = None →
  (dl_files (download_of env video_url fmt) = [] →
   download_and_convert env video_url fmt s = (Ret None, made_scratch [] s)) ∧
  (∀ f rest,
      dl_files (download_of env video_url fmt) = f :: rest →
      download_and_convert env video_url fmt s =
        (if within_limit f s
         then (Ret (Some (scratch_path s f)),
               logged (LogDownloaded f) (made_scratch (f :: rest) s))
         else (Ret None,
               logged (LogFileTooLarge f)
                 (made_scratch (remove_named (fname f) (f :: rest)) s))) ∧
      (fname f ∉ fname <$> rest → remove_named (fname f) (f :: rest) = rest)) ∧
  (∀ env' f rest rest',
      dl_extract_error (download_of env' video_url fmt) = None →
      dl_error (download_of env' video_url fmt) = None →
      dl_files (download_of env video_url fmt) = f :: rest →
      dl_files (download_of env' video_url fmt) = f :: rest' →
      fst (download_and_convert env video_url fmt s)
        = fst (download_and_convert env' video_url fmt s) ∧
      log (world (snd (download_and_convert env video_url fmt s)))
        = log (world (snd (download_and_convert env' video_url fmt s)))).
Proof.
  intros Hextract Herror. split; [|split].
  - by apply download_and_convert_no_file.
  - intros f rest Hfiles. split.
    + by apply download_and_convert_files.
    + apply remove_named_head.
  - intros env' f rest rest' Hextract' Herror' Hfiles Hfiles'.
    rewrite (download_and_convert_files env _ _ _ f rest) by done.
    rewrite (download_and_convert_files env' _ _ _ f rest') by done.
    by destruct (within_limit f s).
Qed.

(** A download of two files, the first of 3 MB: the fetch returns the first
    and leaves both in place. *)
Lemma fetch_decided_by_first_file_witness :
  let s := sample_bot true 50 in
  let first := {| fname := "song.mp3"; fsize := 3145728 |} in
  download_and_convert (two_files_env first) "https://youtu.be/v1" "audio" s =
    (Ret (Some (scratch_path s first)),
     logged (LogDownloaded first)
       (made_scratch [first; {| fname := "cover.webp"; fsize := 104857600 |}] s)).
Proof.
  intros s first.
  destruct (fetch_decided_by_first_file (two_files_env first)
              "https://youtu.be/v1" "audio" s eq_refl eq_refl) as (_ & Hfirst & _).
  destruct (Hfirst first [{| fname := "cover.webp"; fsize := 104857600 |}] eq_refl)
    as [Hrun _].
  exact Hrun.
Defined.

(** ** The fetch and the cycle *)

Lemma download_and_convert_frame env video_url fmt (s : St) :
  ∃ r s', download_and_convert env video_url fmt s = (Ret r, s') ∧
          same_bot_but_scratch s s'.
Proof.
  destruct (dl_extract_error (download_of env video_url fmt)) as [e|] eqn:Hextract.
  { rewrite (download_and_convert_extract_error _ _ _ _ e) by done.
    do 2 eexists. split; [done|]. by repeat split. }
  destruct (dl_error (download_of env video_url fmt)) as [e|] eqn:Herror.
  { rewrite (download_and_convert_download_error _ _ _ _ e) by done.
    do 2 eexists. split; [done|]. by repeat split. }
  destruct (dl_files (download_of env video_url fmt)) as [|f rest] eqn:Hfiles.
  { rewrite download_and_convert_no_file by done.
    do 2 eexists. split; [done|]. by repeat split. }
  rewrite (download_and_convert_files _ _ _ _ f rest) by done.
  destruct (within_limit f s); do 2 eexists; (split; [done|]); by repeat split.
Qed.

Lemma tmp_resolve_logged env url w : tmp (resolve_logged env url w) = tmp w.
Proof. unfold resolve_logged. by destruct (extract_playlist env url) as [[?|]|?]. Qed.

Lemma sent_resolve_logged env url w :
  sent (resolve_logged env url w) = sent w.
Proof. unfold resolve_logged. by destruct (extract_playlist env url) as [[?|]|?]. Qed.

Lemma over_limit_not_within f (s s0 : St) :
  config s0 = config s →
  (max_file_size_mb (config s) < size_mb (fsize f))%Q →
  within_limit f s0 = false.
Proof.
  intros Hcfg Hover. unfold within_limit. rewrite Hcfg.
  destruct (Qle_bool _ _) eqn:Hle; [|done].
  apply Qle_bool_iff in Hle. by apply Qlt_not_le in Hover.
Qed.

(** The cycle whose fetched file is over the limit ends when the fetch has
    reported absence, in the state the fetch left: [s1] is the bot when the
    fetch starts, which differs from [s] in the log only. *)
Lemma cycle_oversized_run env context playlist_url video_url f rest (s : St) :
  enabled (config s) = true →
  playlists (config s) !! (draw_playlist env mod length (playlists (config s)))%nat
    = Some playlist_url →
  resolved env playlist_url !! (draw_video env mod length (resolved env playlist_url))%nat
    = Some video_url →
  dl_extract_error (download_of env video_url (download_format (config s))) = None →
  dl_error (download_of env video_url (download_format (config s))) = None →
  dl_files (download_of env video_url (download_format (config s))) = f :: rest →
  (max_file_size_mb (config s) < size_mb (fsize f))%Q →
  ∃ s1, config s1 = config s ∧ tmp (world s1) = tmp (world s) ∧
        sent (world s1) = sent (world s) ∧
        send_random_music env context s =
          (Ret tt,
           logged (LogFileTooLarge f)
             (made_scratch (remove_named (fname f) (f :: rest)) s1)).
Proof.
  intros Hen Hpick Hvideo Hextract Herror Hfiles Hover.
  unfold send_random_music. unfold try_except at 1. rewrite bind_gets.
  destruct (playlists (config s)) as [|p ps] eqn:Hp; [done|].
  rewrite Hen. state_simpl. unfold random_choice at 1. rewrite Hpick.
  rewrite bind_ret, bind_logger, bind_get_playlist_videos. state_simpl.
  destruct (resolved env playlist_url) as [|v vs] eqn:Hv; [done|].
  unfold random_choice at 1. rewrite Hvideo.
  rewrite bind_ret, bind_logger, bind_gets. state_simpl.
  match goal with
  | |- context [bind (download_and_convert env ?u ?fmt) ?k ?s0] =>
      set (s1 := s0);
      assert (Hrun : download_and_convert env u fmt s1 =
                       (Ret None,
                        logged (LogFileTooLarge f)
                          (made_scratch (remove_named (fname f) (f :: rest)) s1)))
  end.
  { rewrite (download_and_convert_files _ _ _ _ f rest) by done.
    by rewrite (over_limit_not_within f s s1). }
  exists s1. split; [done|].
  split; [unfold s1; state_simpl; by rewrite tmp_resolve_logged|].
  split; [unfold s1; state_simpl; by rewrite sent_resolve_logged|].
  by rewrite (bind_run _ _ _ _ _ Hrun).
Qed.

(** C3. A fetched file whose size in megabytes exceeds [max_file_size_mb]
    is deleted by the fetch, which reports absence (logged as too large);
    and a cycle that fetches such a file (the video it draws downloads
    without an error, and the first file listed is over the limit) returns
    with nothing sent: the messages are those there were, the file is gone
    from the scratch directory of the cycle, which holds what else the
    download left, untouched, and the last line of the log says that the
    file was too large. *)
Theorem oversized_file_deleted_nothing_sent env context (s : St) :
  (∀ video_url fmt f rest,
      dl_extract_error (download_of env video_url fmt) = None →
      dl_error (download_of env video_url fmt) = None →
      dl_files (download_of env video_url fmt) = f :: rest →
      (max_file_size_mb (config s) < size_mb (fsize f))%Q →
      download_and_convert env video_url fmt s =
        (Ret None,
         logged (LogFileTooLarge f)
           (made_scratch (remove_named (fname f) (f :: rest)) s)) ∧
      find_file (scratch_path s f)
                (tmp (world (snd (download_and_convert env video_url fmt s))))
        = None) ∧
  (∀ playlist_url video_url f rest,
      enabled (config s) = true →
      playlists (config s) !! (draw_playlist env mod length (playlists (config s)))%nat
        = Some playlist_url →
      resolved env playlist_url
        !! (draw_video env mod length (resolved env playlist_url))%nat
        = Some video_url →
      dl_extract_error (download_of env video_url (download_format (config s))) = None →
      dl_error (download_of env video_url (download_format (config s))) = None →
      dl_files (download_of env video_url (download_format (config s))) = f :: rest →
      (max_file_size_mb (config s) < size_mb (fsize f))%Q →
      ∃ s', send_random_music env context s = (Ret tt, s') ∧
            sent (world s') = sent (world s) ∧
            tmp (world s') =
              <[scratch s := remove_named (fname f) (f :: rest)]> (tmp (world s)) ∧
            find_file (scratch_path s f) (tmp (world s')) = None ∧
            last (log (world s')) = Some (LogFileTooLarge f) ∧
            config s' = config s).
Proof.
  split.
  - intros video_url fmt f rest Hextract Herror Hfiles Hover.
    rewrite (download_and_convert_files _ _ _ _ f rest) by done.
    rewrite (over_limit_not_within f s s) by done.
    split; [done|]. apply find_file_removed.
  - intros playlist_url video_url f rest Hen Hpick Hvideo Hextract Herror Hfiles Hover.
    destruct (cycle_oversized_run env context playlist_url video_url f rest s)
      as (s1 & Hcfg & Htmp & Hsent & ->); try done.
    eexists. split; [reflexivity|].
    unfold logged, made_scratch, scratch, scratch_path.
    cbn [world set_world tmp set_tmp add_log sent log config].
    rewrite Htmp. split; [done|]. split; [done|].
    split; [apply find_file_removed|]. split; [apply last_snoc|done].
Qed.

(** The limit is 10 MB.  A download that leaves one file of 15 MB: the
    fetch deletes it and the cycle sends nothing.  And on a playlist of two
    videos of which the one of 15 MB is drawn, the cycle sends nothing,
    although the other video is within the limit. *)
Lemma oversized_file_deleted_nothing_sent_witness :
  let s := sample_bot true 10 in
  let env := sample_env 15728640 in
  let f := {| fname := "song.mp3"; fsize := 15728640 |} in
  let g := {| fname := "long.mp3"; fsize := 15728640 |} in
  (download_and_convert env "https://youtu.be/v1" "audio" s =
     (Ret None, logged (LogFileTooLarge f) (made_scratch [] s)) ∧
   find_file (scratch_path s f)
             (tmp (world (snd (download_and_convert env "https://youtu.be/v1"
                                 "audio" s)))) = None) ∧
  (∃ s', send_random_music env (Some {| args := [] |}) s = (Ret tt, s') ∧
         sent (world s') = [] ∧
         tmp (world s') = {[ scratch s := [] ]} ∧
         last (log (world s')) = Some (LogFileTooLarge f)) ∧
  (∃ s', send_random_music mixed_playlist_env (Some {| args := [] |}) s = (Ret tt, s') ∧
         sent (world s') = [] ∧
         find_file (scratch_path s g) (tmp (world s')) = None).
Proof.
  intros s env f g.
  destruct (oversized_file_deleted_nothing_sent env (Some {| args := [] |}) s)
    as [Hfetch Hcycle].
  destruct (oversized_file_deleted_nothing_sent mixed_playlist_env
              (Some {| args := [] |}) s) as [_ Hmixed].
  split; [|split].
  - apply (Hfetch "https://youtu.be/v1" "audio" f []); reflexivity.
  - destruct (Hcycle sample_playlist "https://youtu.be/v1" f [])
      as (s' & Hrun & Hsent & Htmp & _ & Hlog & _); try reflexivity.
    exists s'. split; [exact Hrun|]. split; [exact Hsent|]. split; [|exact Hlog].
    rewrite Htmp. reflexivity.
  - destruct (Hmixed sample_playlist "https://youtu.be/v2" g [])
      as (s' & Hrun & Hsent & _ & Hgone & _); try reflexivity.
    exists s'. split; [exact Hrun|]. split; [exact Hsent|exact Hgone].
Defined.

(** ** The cycle at sample inputs *)

(** A cycle of the enabled sample bot whose download is within the limit:
    the file is sent as audio and the scratch directory is gone. *)
Example cycle_delivers_and_cleans :
  let s := sample_bot true 50 in
  let s' := snd (send_random_music (sample_env 3145728) (Some {| args := [] |}) s) in
  sent (world s') =
    [ {| d_kind := Audio; d_chat := 7;
         d_file := {| pdir := scratch s; pname := "song.mp3" |};
         d_url := "https://youtu.be/v1" |} ] ∧
  tmp (world s') !! scratch s = None ∧
  log (world s') =
    [ LogSelectedPlaylist sample_playlist;
      LogSelectedVideo "https://youtu.be/v1";
      LogDownloaded {| fname := "song.mp3"; fsize := 3145728 |};
      LogSentFile;
      LogCleanedUp ].
Proof. vm_compute. by repeat split. Qed.

(** The scheduled job calls the cycle without a context: the send raises,
    nothing is delivered, and the clean-up still runs. *)
Example scheduled_cycle_cleans_without_sending :
  let s := sample_bot true 50 in
  let s' := snd (send_random_music (sample_env 3145728) None s) in
  sent (world s') = [] ∧
  tmp (world s') !! scratch s = None ∧
  log (world s') =
    [ LogSelectedPlaylist sample_playlist;
      LogSelectedVideo "https://youtu.be/v1";
      LogDownloaded {| fname := "song.mp3"; fsize := 3145728 |};
      LogErrSending AttributeError;
      LogCleanedUp ].
Proof. vm_compute. by repeat split. Qed.

(** C1, on the code. The sample bot has a playlist and is not enabled; the
    recipient sends [/send_now].  The handler replies that it is selecting
    and downloading, and the cycle stops at the [enabled] test: no playlist
    is selected, no scratch directory is made, nothing is sent. *)
Theorem send_now_stops_when_disabled :
  let s := sample_bot false 50 in
  send_now_command (sample_env 3145728) recipient {| args := [] |} s =
    (Ret tt, logged LogBotDisabled (replied recipient RSelecting s)) ∧
  sent (world (snd (send_now_command (sample_env 3145728) recipient
                      {| args := [] |} s))) = [].
Proof. split; reflexivity. Qed.

(** The same holds of every bot that has a playlist and is not enabled. *)
Lemma send_now_command_disabled env update context (s : St) :
  playlists (config s) ≠ [] →
  enabled (config s) = false →
  send_now_command env update context s =
    (Ret tt, logged LogBotDisabled (replied update RSelecting s)).
Proof.
  intros Hsome Hoff. unfold send_now_command. rewrite bind_gets.
  destruct (playlists (config s)) as [|p ps] eqn:Hp; [done|].
  rewrite bind_reply_text. unfold send_random_music, try_except.
  rewrite bind_gets. unfold replied at 1 2. state_simpl.
  rewrite Hp, Hoff. state_simpl. by rewrite logger_run.
Qed.

(** C2, on the code. The limit is 10 MB and the download leaves one file of
    15 MB: the fetch deletes the file and the cycle ends, and the scratch
    directory of the cycle is still there, empty. *)
Theorem scratch_directory_left_after_oversized_file :
  let s := sample_bot true 10 in
  let s' := snd (send_random_music (sample_env 15728640) (Some {| args := [] |}) s) in
  tmp (world s) !! scratch s = None ∧
  tmp (world s') !! scratch s = Some [] ∧
  sent (world s') = [].
Proof. vm_compute. by repeat split. Qed.

(** ** What the handlers maintain *)

Section Maintains.
Variable P : St → Prop.
Hypothesis P_world : ∀ w s, P s → P (set_world w s).
Hypothesis P_enabled : ∀ b s, P s → P (set_config (set_enabled b (config s)) s).
Hypothesis P_interval :
  ∀ n s, P s → P (set_config (set_interval_minutes n (config s)) s).
Hypothesis P_format :
  ∀ f s, P s → P (set_config (set_download_format f (config s)) s).
Hypothesis P_append :
  ∀ url s, P s → P (set_config (set_playlists (playlists (config s) ++ [url])
                                              (config s)) s).
Hypothesis P_delete :
  ∀ (i : nat) s, P s → P (set_config (set_playlists (delete i (playlists (config s)))
                                                    (config s)) s).
Hypothesis P_setup : ∀ env, maintains P (setup_scheduler env).
Hypothesis P_remove : maintains P (in_scheduler Sched.remove_all_jobs).

Lemma maintains_ret {A} (a : A) : maintains P (ret a).
Proof. by intros s. Qed.

Lemma maintains_raise {A} e : maintains P (@raise St A e).
Proof. by intros s. Qed.

Lemma maintains_gets {A} (f : St → A) : maintains P (gets f).
Proof. by intros s. Qed.

Lemma maintains_lift_result {A} (r : result A) : maintains P (lift_result r).
Proof. by intros s. Qed.

Lemma maintains_modify (f : St → St) :
  (∀ s, P s → P (f s)) → maintains P (modify f).
Proof. intros Hf s Hs. by apply Hf. Qed.

Lemma maintains_in_world {A} (m : M World A) : maintains P (in_world m).
Proof.
  intros s Hs. unfold in_world, zoom. destruct (m (world s)) as [r w'].
  by apply P_world.
Qed.

Lemma maintains_bind {A B} (m : M St A) (k : A → M St B) :
  maintains P m → (∀ a, maintains P (k a)) → maintains P (bind m k).
Proof.
  intros Hm Hk s Hs. unfold bind. specialize (Hm s Hs).
  destruct (m s) as [[a|e] s']; [by apply Hk|done].
Qed.

Lemma maintains_try_except {A} (body : M St A) handler :
  maintains P body → (∀ e, maintains P (handler e)) →
  maintains P (try_except body handler).
Proof.
  intros Hbody Hhandler s Hs. unfold try_except. specialize (Hbody s Hs).
  destruct (body s) as [[a|e] s']; [done|by apply Hhandler].
Qed.

Lemma maintains_try_finally {A} (body : M St A) fin :
  maintains P body → maintains P fin → maintains P (try_finally body fin).
Proof.
  intros Hbody Hfin s Hs. unfold try_finally. specialize (Hbody s Hs).
  destruct (body s) as [r s']. specialize (Hfin s' Hbody).
  by destruct (fin s') as [[[]|e] s''].
Qed.

Lemma maintains_for_return {A R} (l : list A) (body : A → M St (option R)) :
  (∀ x, maintains P (body x)) → maintains P (for_return l body).
Proof.
  intros Hbody. induction l as [|x rest IH]; [apply maintains_ret|].
  cbn [for_return]. apply maintains_bind; [done|].
  intros [v|]; [apply maintains_ret|done].
Qed.

Lemma maintains_random_choice {A} draw (l : list A) :
  maintains P (random_choice draw l).
Proof.
  unfold random_choice.
  destruct (l !! _); [apply maintains_ret|apply maintains_raise].
Qed.

(** Takes a computation apart along the lemmas above. *)
Ltac maintain :=
  repeat first
    [ assumption
    | match goal with H : context [maintains] |- maintains _ _ => apply H end
    | apply maintains_ret | apply maintains_raise | apply maintains_gets
    | apply maintains_lift_result | apply maintains_in_world
    | apply maintains_random_choice
    | apply maintains_modify; intros ? ?;
      first [apply P_enabled | apply P_interval | apply P_format
            | apply P_append | apply P_delete]; assumption
    | apply maintains_bind; [|intros ?]
    | apply maintains_try_except; [|intros ?]
    | apply maintains_try_finally
    | apply maintains_for_return; intros ?
    | match goal with
      | |- maintains _ (match ?x with _ => _ end) => destruct x
      end ].

Lemma maintains_save_config : maintains P save_config.
Proof. unfold save_config. maintain. Qed.

Lemma maintains_reply_text update r : maintains P (reply_text update r).
Proof. unfold reply_text. maintain. Qed.

Lemma maintains_get_playlist_videos env url :
  maintains P (get_playlist_videos env url).
Proof. unfold get_playlist_videos. maintain. Qed.

Lemma maintains_download_and_convert env video_url fmt :
  maintains P (download_and_convert env video_url fmt).
Proof. unfold download_and_convert. maintain. Qed.

Lemma maintains_bot_send env context kind file_path video_url :
  maintains P (bot_send env context kind file_path video_url).
Proof. unfold bot_send. maintain. Qed.

Lemma maintains_send_random_music env context :
  maintains P (send_random_music env context).
Proof.
  pose proof maintains_get_playlist_videos.
  pose proof maintains_download_and_convert.
  pose proof maintains_bot_send.
  unfold send_random_music. maintain.
Qed.

Lemma maintains_start_command update context :
  maintains P (start_command update context).
Proof. pose proof maintains_reply_text. unfold start_command. maintain. Qed.

Lemma maintains_help_command update context :
  maintains P (help_command update context).
Proof. pose proof maintains_reply_text. unfold help_command. maintain. Qed.

Lemma maintains_status_command update context :
  maintains P (status_command update context).
Proof. pose proof maintains_reply_text. unfold status_command. maintain. Qed.

Lemma maintains_list_playlists_command update context :
  maintains P (list_playlists_command update context).
Proof. pose proof maintains_reply_text. unfold list_playlists_command. maintain. Qed.

Lemma maintains_send_now_command env update context :
  maintains P (send_now_command env update context).
Proof.
  pose proof maintains_reply_text. pose proof maintains_send_random_music.
  unfold send_now_command. maintain.
Qed.

Lemma maintains_set_format_command update context :
  maintains P (set_format_command update context).
Proof.
  pose proof maintains_reply_text. pose proof maintains_save_config.
  unfold set_format_command. maintain.
Qed.

Lemma maintains_set_interval_command env update context :
  maintains P (set_interval_command env update context).
Proof.
  pose proof maintains_reply_text. pose proof maintains_save_config.
  unfold set_interval_command. maintain.
Qed.

Lemma maintains_enable_command env update context :
  maintains P (enable_command env update context).
Proof.
  pose proof maintains_reply_text. pose proof maintains_save_config.
  unfold enable_command. maintain.
Qed.

Lemma maintains_disable_command update context :
  maintains P (disable_command update context).
Proof.
  pose proof maintains_reply_text. pose proof maintains_save_config.
  unfold disable_command. maintain.
Qed.

Lemma maintains_add_playlist_command env update context :
  maintains P (add_playlist_command env update context).
Proof.
  pose proof maintains_reply_text. pose proof maintains_save_config.
  pose proof maintains_get_playlist_videos.
  unfold add_playlist_command. maintain.
Qed.

Lemma maintains_remove_playlist_command env update context :
  maintains P (remove_playlist_command env update context).
Proof.
  pose proof maintains_reply_text. pose proof maintains_save_config.
  unfold remove_playlist_command. maintain.
Qed.

Lemma maintains_authorized_command handler_func update context :
  maintains P (handler_func update context) →
  maintains P (authorized_command handler_func update context).
Proof.
  pose proof maintains_reply_text.
  intros Hh. unfold authorized_command, check_user_permission. maintain.
Qed.

(** A step maintains what start-up, every handler of the table and the
    cycle maintain. *)
Lemma step_maintains env ev (s : St) :
  (∀ command handler update context,
      (command, handler) ∈ handlers env → maintains P (handler update context)) →
  P s → P (step env ev s).
Proof.
  intros Hhandlers Hs. destruct ev as [|command update context|]; cbn [step].
  - by apply P_setup.
  - destruct (List.find _ (registered env)) as [[c handler]|] eqn:Hfind; [|done].
    apply find_some in Hfind as [Hin _]. apply list_elem_of_In in Hin.
    unfold registered in Hin.
    apply list_elem_of_fmap in Hin as [[c' h] [Heq Hin]].
    injection Heq as -> ->.
    apply maintains_authorized_command; [|done].
    by eapply Hhandlers.
  - destruct (_ && _)%bool; [|done]. by apply maintains_send_random_music.
Qed.

Lemma run_events_maintains evs (s : St) :
  (∀ env command handler update context,
      (command, handler) ∈ handlers env → maintains P (handler update context)) →
  P s → P (run_events evs s).
Proof.
  intros Hhandlers. revert s.
  induction evs as [|[env ev] evs IH]; intros s Hs; [done|].
  cbn [run_events]. apply IH, step_maintains; [|done]. apply Hhandlers.
Qed.

End Maintains.

(** The rows of the handler table, one by one. *)
Lemma handlers_cases env command handler (Q : Handler → Prop) :
  Q start_command → Q help_command → Q status_command →
  Q (enable_command env) → Q disable_command →
  Q (add_playlist_command env) → Q (remove_playlist_command env) →
  Q list_playlists_command → Q (set_interval_command env) →
  Q set_format_command → Q (send_now_command env) →
  (command, handler) ∈ handlers env → Q handler.
Proof.
  intros ? ? ? ? ? ? ? ? ? ? ?. unfold handlers.
  rewrite !elem_of_cons, elem_of_nil. intros Hin.
  repeat (destruct Hin as [Hin|Hin]; [by injection Hin as _ ->|]). done.
Qed.

(** ** The invariant of the record *)

Lemma disable_command_config update context (s : St) :
  config (snd (disable_command update context s)) = set_enabled false (config s).
Proof.
  destruct s as [uid cfg [r pending store] w].
  unfold disable_command. rewrite bind_modify, bind_save_config, bind_gets.
  state_simpl. cbn [Sched.running].
  unfold in_scheduler, zoom, Sched.remove_all_jobs, bind, ret, reply_text, in_world,
    modify, zoom.
  by destruct r.
Qed.

Lemma remove_playlist_command_config env update context (s : St) :
  config (snd (remove_playlist_command env update context s)) = config s ∨
  ∃ i, (i < length (playlists (config s)))%nat ∧
       config (snd (remove_playlist_command env update context s)) =
         set_playlists (delete i (playlists (config s))) (config s).
Proof.
  unfold remove_playlist_command. destruct (args context) as [|arg rest]; [by left|].
  destruct (py_int env arg) as [n|]; [|by left]. mrun.
  destruct (Z.leb_spec 0 (n - 1)); cbn [andb]; [|left; by mrun].
  destruct (Z.ltb_spec (n - 1) (Z.of_nat (length (playlists (config s)))));
    [|left; by mrun].
  destruct (lookup_lt_is_Some_2 (playlists (config s)) (Z.to_nat (n - 1)))
    as [removed_playlist Hremoved]; [lia|].
  rewrite Hremoved. mrun. right. exists (Z.to_nat (n - 1)). split; [lia|done].
Qed.

(** What the handlers other than [remove_playlist] do to the record keeps
    the invariant. *)
Lemma invariant_kept_but_remove env command handler update context (s : St) :
  (command, handler) ∈ handlers env →
  command ≠ "remove_playlist" →
  enabled_has_playlists (config s) →
  enabled_has_playlists (config (snd (handler update context s))).
Proof.
  pose (P := λ s : St, enabled_has_playlists (config s)).
  assert (Hsetup : ∀ env, maintains P (setup_scheduler env)).
  { intros env0 s0 Hs0. unfold P. by destruct (setup_scheduler_frame env0 s0) as (-> & _). }
  intros Hin Hcommand. revert s. change (maintains P (handler update context)).
  unfold handlers in Hin. rewrite !elem_of_cons, elem_of_nil in Hin.
  destruct Hin as [Hin|[Hin|[Hin|[Hin|[Hin|[Hin|[Hin|[Hin|[Hin|[Hin|[Hin|[]]]]]]]]]]]];
    injection Hin as -> ->; try done.
  - by apply maintains_start_command.
  - by apply maintains_help_command.
  - by apply maintains_status_command.
  - intros s Hs. unfold P. destruct (playlists (config s)) eqn:Hp.
    + by rewrite enable_command_empty.
    + rewrite enable_command_config by by rewrite Hp.
      intros _. cbn. by rewrite Hp.
  - intros s Hs. unfold P. by rewrite disable_command_config.
  - apply maintains_add_playlist_command; [done|].
    intros url s Hs _. cbn. by destruct (playlists (config s)).
  - by apply maintains_list_playlists_command.
  - by apply maintains_set_interval_command.
  - by apply maintains_set_format_command.
  - by apply maintains_send_now_command.
Qed.

(** C4, as the code has it. [enable] on a record without playlists is
    rejected where the command is handled: the record, the settings file and
    the scheduler stay as they are and only the refusal is replied, so
    [enabled] stays false when it was false.  And every handler keeps the
    invariant that an enabled record has a playlist, but for one case:
    [remove_playlist] taking the only playlist of an enabled record. *)
Theorem enable_without_playlists_rejected env update context (s : St) :
  (playlists (config s) = [] →
   enable_command env update context s = (Ret tt, replied update RCannotEnable s) ∧
   config (snd (enable_command env update context s)) = config s ∧
   config_file (world (snd (enable_command env update context s)))
     = config_file (world s) ∧
   (enabled (config s) = false →
    enabled (config (snd (enable_command env update context s))) = false)) ∧
  (enabled_has_playlists (config s) →
   ∀ command handler,
     (command, handler) ∈ handlers env →
     enabled_has_playlists (config (snd (handler update context s))) ∨
     command = "remove_playlist" ∧
     enabled (config s) = true ∧
     (∃ playlist_url, playlists (config s) = [playlist_url]) ∧
     playlists (config (snd (handler update context s))) = []).
Proof.
  split.
  - intros Hnone. rewrite (enable_command_empty _ _ _ _ Hnone). by repeat split.
  - intros Hinv command handler Hin.
    destruct (decide (command = "remove_playlist")) as [->|Hcommand].
    2:{ left. by eapply invariant_kept_but_remove. }
    assert (handler = remove_playlist_command env) as ->.
    { unfold handlers in Hin. rewrite !elem_of_cons, elem_of_nil in Hin.
      repeat (destruct Hin as [Hin|Hin];
              [first [discriminate Hin|by injection Hin as ->]|]).
      done. }
    destruct (remove_playlist_command_config env update context s)
      as [->|(i & Hi & ->)]; [by left|].
    cbn [playlists set_playlists enabled].
    destruct (enabled (config s)) eqn:Hen;
      [|left; unfold enabled_has_playlists; cbn; by rewrite Hen].
    destruct (playlists (config s)) as [|p [|q l]] eqn:Hp; cbn in Hi; [lia| |].
    + right. destruct i; [|lia]. by eauto.
    + left. unfold enabled_has_playlists. cbn. intros _. by destruct i.
Qed.

(** [enable] on the bot as first set up (no playlists, not enabled). *)
Lemma enable_without_playlists_rejected_witness :
  let s := first_run 7 empty_world in
  enable_command (sample_env 0) recipient {| args := [] |} s =
    (Ret tt, replied recipient RCannotEnable s) ∧
  enabled (config (snd (enable_command (sample_env 0) recipient {| args := [] |} s)))
    = false.
Proof.
  intros s.
  destruct (enable_without_playlists_rejected (sample_env 0) recipient
              {| args := [] |} s) as [Hrejected _].
  destruct (Hrejected eq_refl) as (Hrun & _ & _ & Hstays).
  split; [exact Hrun|]. apply Hstays. reflexivity.
Defined.

(** C4, as stated, fails: after [add_playlist], [enable] and
    [remove_playlist 1] the record has no playlist and is enabled, and
    [enable] leaves it enabled. *)
Lemma enable_without_playlists_counterexample :
  playlists (config after_add_enable_remove) = [] ∧
  enabled (config after_add_enable_remove) = true ∧
  enabled (config (snd (enable_command (sample_env 0) recipient {| args := [] |}
                          after_add_enable_remove))) = true.
Proof. vm_compute. by repeat split. Qed.

(** ** The playlist list over a run *)

Lemma NoDup_setup_scheduler env :
  maintains (λ s, NoDup (playlists (config s))) (setup_scheduler env).
Proof.
  intros s Hs. by destruct (setup_scheduler_frame env s) as (-> & _).
Qed.

Lemma NoDup_remove_all_jobs :
  maintains (λ s, NoDup (playlists (config s))) (in_scheduler Sched.remove_all_jobs).
Proof.
  intros s Hs. unfold in_scheduler, zoom.
  by destruct (Sched.remove_all_jobs (scheduler s)).
Qed.

Lemma NoDup_add_playlist_command env update context :
  maintains (λ s, NoDup (playlists (config s))) (add_playlist_command env update context).
Proof.
  intros s Hs. destruct context as [[|playlist_url rest]].
  - done.
  - by apply add_playlist_NoDup.
Qed.

(** No event of a run puts a duplicate into the playlist list. *)
Lemma run_events_NoDup evs (s : St) :
  NoDup (playlists (config s)) → NoDup (playlists (config (run_events evs s))).
Proof.
  apply (run_events_maintains (λ s, NoDup (playlists (config s))));
    [done|apply NoDup_setup_scheduler|].
  intros env command handler update context.
  apply (handlers_cases env command handler
           (λ h, maintains (λ s, NoDup (playlists (config s))) (h update context))).
  - by apply maintains_start_command.
  - by apply maintains_help_command.
  - by apply maintains_status_command.
  - apply maintains_enable_command; [done..|apply NoDup_setup_scheduler].
  - apply maintains_disable_command; [done..|apply NoDup_remove_all_jobs].
  - apply NoDup_add_playlist_command.
  - apply maintains_remove_playlist_command; [done|].
    intros i s0 Hs0. cbn. eapply sublist_NoDup; [done|apply sublist_delete].
  - by apply maintains_list_playlists_command.
  - apply maintains_set_interval_command; [done..|apply NoDup_setup_scheduler].
  - by apply maintains_set_format_command.
  - by apply maintains_send_now_command.
Qed.

(** C6. [add_playlist] with a URL that is already in the list changes
    neither the record nor the settings file; so of two [add_playlist] with
    one URL the second changes nothing once the first has put the URL in the
    list, which then holds it once; and a list without duplicates stays
    without duplicates, under [add_playlist] and over every run of the bot. *)
Theorem add_playlist_idempotent env1 env2 update playlist_url rest1 rest2 (s : St) :
  let s1 := snd (add_playlist_command env1 update
                   {| args := playlist_url :: rest1 |} s) in
  let s2 := snd (add_playlist_command env2 update
                   {| args := playlist_url :: rest2 |} s1) in
  (playlist_url ∈ playlists (config s) →
   config s1 = config s ∧ config_file (world s1) = config_file (world s)) ∧
  (playlist_url ∈ playlists (config s1) →
   config s2 = config s1 ∧ config_file (world s2) = config_file (world s1)) ∧
  (playlist_url ∉ playlists (config s) →
   playlist_url ∈ playlists (config s1) →
   playlists (config s2) = playlists (config s) ++ [playlist_url]) ∧
  (NoDup (playlists (config s)) →
   NoDup (playlists (config s1)) ∧ NoDup (playlists (config s2)) ∧
   ∀ evs, NoDup (playlists (config (run_events evs s)))).
Proof.
  intros s1 s2. split; [|split; [|split]].
  - intros Hin. apply add_playlist_refused. by apply member_not_accepted.
  - intros Hin. apply add_playlist_refused. by apply member_not_accepted.
  - intros Hnew Hin.
    assert (Hs2 : playlists (config s2) = playlists (config s1)).
    { unfold s2. rewrite add_playlist_playlists.
      by rewrite (member_not_accepted env2 _ _ Hin). }
    rewrite Hs2. unfold s1 in *. rewrite add_playlist_playlists in *.
    by destruct (accepted env1 playlist_url (playlists (config s))).
  - intros Hnd. split; [|split].
    + by apply add_playlist_NoDup.
    + by do 2 apply add_playlist_NoDup.
    + intros evs. by apply run_events_NoDup.
Qed.

(** The sample playlist is added twice to a bot without playlists: one
    entry. *)
Lemma add_playlist_idempotent_witness :
  let s := first_run 7 empty_world in
  let update := {| effective_user := 7 |} in
  let context := {| args := [sample_playlist] |} in
  let s1 := snd (add_playlist_command (sample_env 0) update context s) in
  let s2 := snd (add_playlist_command (sample_env 0) update context s1) in
  playlists (config s1) = [sample_playlist] ∧
  playlists (config s2) = [sample_playlist] ∧
  config s2 = config s1.
Proof.
  intros s update context s1 s2.
  pose proof (add_playlist_idempotent (sample_env 0) (sample_env 0) update
                sample_playlist [] [] s) as (_ & Hsecond & Hone & _).
  assert (Hin : sample_playlist ∈ playlists (config s1)).
  { vm_compute. apply list_elem_of_here. }
  split; [reflexivity|]. split.
  - apply Hone; [|exact Hin]. vm_compute. apply not_elem_of_nil.
  - apply Hsecond. exact Hin.
Defined.

(** ** Scheduler *)

(** The scheduler after [setup_scheduler], from a scheduler that is
    [sched_ok]. *)
Lemma setup_scheduler_scheduler env (s : St) :
  sched_ok (scheduler s) →
  scheduler (snd (setup_scheduler env s)) =
    if installs_job env (config s)
    then {| Sched.running := true; Sched.pending_jobs := [];
            Sched.jobstore := [send_music_job (interval_minutes (config s))] |}
    else {| Sched.running := Sched.running (scheduler s); Sched.pending_jobs := [];
            Sched.jobstore := [] |}.
Proof.
  destruct s as [uid cfg [r pending store] w].
  unfold sched_ok, installs_job, wants_job, trigger_fits.
  cbn [scheduler config Sched.pending_jobs Sched.jobstore Sched.running].
  intros [-> Hstore].
  unfold setup_scheduler, Sched.remove_all_jobs, Sched.add_job, Sched.start.
  unfold_monad.
  destruct r; cbn; destruct (enabled cfg); cbn; destruct (playlists cfg); cbn;
    try destruct (IntervalTrigger _ _); cbn;
    destruct Hstore as [->|[Hr [minutes ->]]]; done.
Qed.

Lemma sched_ok_setup env :
  maintains (λ s, sched_ok (scheduler s)) (setup_scheduler env).
Proof.
  intros s Hs. rewrite setup_scheduler_scheduler by done.
  destruct (installs_job env (config s)); split; cbn; eauto.
Qed.



Lemma sched_ok_new : sched_ok Sched.new_scheduler.
Proof. split; [done|by left]. Qed.







(** ** The scratch directory after a fetch *)

(** [mkdtemp] makes a directory that was not there. *)
Lemma scratch_fresh (s : St) : tmp (world s) !! scratch s = None.
Proof. unfold scratch. apply (not_elem_of_dom (D := gset nat)). apply is_fresh. Qed.

(** Whatever the fetch answers, the directory it made is there after it. *)
Lemma scratch_stays_after_fetch env video_url fmt (s : St) :
  is_Some (tmp (world (snd (download_and_convert env video_url fmt s))) !! scratch s).
Proof.
  destruct (dl_extract_error (download_of env video_url fmt)) as [e|] eqn:Hextract.
  { rewrite (download_and_convert_extract_error _ _ _ _ e) by done.
    cbn. rewrite lookup_insert_eq. eauto. }
  destruct (dl_error (download_of env video_url fmt)) as [e|] eqn:Herror.
  { rewrite (download_and_convert_download_error _ _ _ _ e) by done.
    cbn. rewrite lookup_insert_eq. eauto. }
  destruct (dl_files (download_of env video_url fmt)) as [|f rest] eqn:Hfiles.
  { rewrite download_and_convert_no_file by done.
    cbn. rewrite lookup_insert_eq. eauto. }
  rewrite (download_and_convert_files _ _ _ _ f rest) by done.
  destruct (within_limit f s); cbn; rewrite lookup_insert_eq; eauto.
Qed.

(** A cycle whose download raises: the scratch directory stays, with the
    partial file in it. *)
Example scratch_directory_left_after_download_error :
  let s := sample_bot true 50 in
  let s' := snd (send_random_music failing_download_env (Some {| args := [] |}) s) in
  tmp (world s') !! scratch s = Some [{| fname := "song.mp3.part"; fsize := 1048576 |}] ∧
  sent (world s') = [].
Proof. vm_compute. by repeat split. Qed.

(** * Further properties *)

(** ** PlaylistResolver, in full *)

Lemma foldl_entry_urls entries (video_urls : list string) :
  foldl (λ video_urls entry,
           match entry with
           | EntryDict (Some url) => video_urls ++ [url]
           | _ => video_urls
           end) video_urls entries
    = video_urls ++ omap entry_url entries.
Proof.
  revert video_urls. induction entries as [|[|[url|]] entries IH]; intros video_urls;
    cbn; rewrite ?IH, ?app_nil_r; [done..| |done].
  by rewrite <- app_assoc.
Qed.

Lemma set_world_same (s : St) : set_world (world s) s = s.
Proof. by destruct s. Qed.

(** X1. [get_playlist_videos] never raises and changes nothing but the log.
    Of a playlist with entries it returns, in their order, the [webpage_url]
    of every entry that has one, skipping the others without a log line; of
    a playlist without the key [entries], or when the extraction raises, it
    returns the empty list and logs why. *)
Theorem get_playlist_videos_contract env playlist_url (s : St) :
  get_playlist_videos env playlist_url s =
    match extract_playlist env playlist_url with
    | Ret (WithEntries entries) => (Ret (omap entry_url entries), s)
    | Ret WithoutEntries =>
        (Ret [], logged (LogNoVideosInPlaylist playlist_url) s)
    | Raise e =>
        (Ret [], logged (LogErrExtractingPlaylist playlist_url e) s)
    end.
Proof.
  rewrite get_playlist_videos_run. unfold resolved, resolve_logged, logged.
  destruct (extract_playlist env playlist_url) as [[entries|]|e]; [|done..].
  by rewrite foldl_entry_urls, set_world_same.
Qed.

(** ** [add_playlist], in full *)

Lemma add_playlist_command_run env update playlist_url rest (s : St) :
  add_playlist_command env update {| args := playlist_url :: rest |} s =
    if negb (playlist_shaped playlist_url)
    then (Ret tt, replied update RInvalidPlaylistUrl s)
    else if bool_decide (playlist_url ∈ playlists (config s))
    then (Ret tt, replied update RAlreadyInList s)
    else
      let s1 := set_world (resolve_logged env playlist_url
                             (world (replied update RTestingPlaylist s))) s in
      match resolved env playlist_url with
      | [] => (Ret tt, replied update RPlaylistInaccessible s1)
      | _ :: _ =>
          let cfg' := set_playlists (playlists (config s) ++ [playlist_url])
                                    (config s) in
          (Ret tt,
           replied update
             (RPlaylistAdded (length (resolved env playlist_url))
                             (length (playlists (config s) ++ [playlist_url])))
             (set_world (persist cfg' (world s1)) (set_config cfg' s1)))
      end.
Proof.
  unfold playlist_shaped, add_playlist_command. state_simpl.
  destruct (is_substring "youtube.com/playlist" playlist_url),
    (is_substring "youtu.be/playlist" playlist_url); state_simpl;
    try (mrun; done).
  all: mrun; destruct (bool_decide (playlist_url ∈ playlists (config s)));
    state_simpl; mrun; try done.
  all: destruct (resolved env playlist_url) eqn:Hr; mrun; done.
Qed.

(** X2. [add_playlist] with a URL that has not the shape of a playlist URL,
    or that resolves to no item, changes neither the settings record nor the
    settings file nor the scheduler; the caller is told which of the two it
    was (after the notice that the playlist is being tested, in the second
    case). *)
Theorem add_playlist_rejects_unusable_url env update playlist_url rest (s : St) :
  playlist_shaped playlist_url = false ∨ resolved env playlist_url = [] →
  playlist_url ∉ playlists (config s) →
  let s' := snd (add_playlist_command env update {| args := playlist_url :: rest |} s) in
  fst (add_playlist_command env update {| args := playlist_url :: rest |} s) = Ret tt ∧
  config s' = config s ∧
  config_file (world s') = config_file (world s) ∧
  scheduler s' = scheduler s ∧
  replies (world s') =
    replies (world s) ++
      (if playlist_shaped playlist_url
       then [(effective_user update, RTestingPlaylist);
             (effective_user update, RPlaylistInaccessible)]
       else [(effective_user update, RInvalidPlaylistUrl)]).
Proof.
  intros Hbad Hnew s'. unfold s'. rewrite add_playlist_command_run.
  destruct (playlist_shaped playlist_url) eqn:Hshape; cbn [negb].
  - destruct Hbad as [?|Hnone]; [done|].
    rewrite bool_decide_false by done. cbn zeta. rewrite Hnone. cbn.
    rewrite config_file_resolve_logged. repeat split.
    unfold resolve_logged.
    destruct (extract_playlist env playlist_url) as [[?|]|?]; cbn;
      by rewrite <- app_assoc.
  - by repeat split.
Qed.

(** A well-shaped URL whose playlist cannot be reached, on the sample
    bot. *)
Lemma add_playlist_rejects_unusable_url_witness :
  let s := sample_bot false 50 in
  let s' := snd (add_playlist_command unreachable_playlist_env recipient
                   {| args := [second_playlist] |} s) in
  config s' = config s ∧
  replies (world s') = [(7, RTestingPlaylist); (7, RPlaylistInaccessible)].
Proof.
  intros s s'.
  destruct (add_playlist_rejects_unusable_url unreachable_playlist_env recipient
              second_playlist [] s) as (_ & Hcfg & _ & _ & Hreplies).
  { by right. }
  { change (second_playlist ∉ [sample_playlist]).
    intros Hin. apply list_elem_of_singleton in Hin. discriminate Hin. }
  split; [exact Hcfg|exact Hreplies].
Defined.

(** X3. [add_playlist] with a playlist-shaped URL that is not in the list
    and resolves to at least one item puts the URL at the end of the list:
    the playlists already there keep their numbers, the new one gets the
    next number, nothing else in the record changes, the record is saved,
    and the reply counts the items found and the playlists held. *)
Theorem add_playlist_appends env update playlist_url rest (s : St) :
  playlist_shaped playlist_url = true →
  playlist_url ∉ playlists (config s) →
  resolved env playlist_url ≠ [] →
  let s' := snd (add_playlist_command env update {| args := playlist_url :: rest |} s) in
  fst (add_playlist_command env update {| args := playlist_url :: rest |} s) = Ret tt ∧
  config s' = set_playlists (playlists (config s) ++ [playlist_url]) (config s) ∧
  (∀ i p, playlists (config s) !! i = Some p → playlists (config s') !! i = Some p) ∧
  playlists (config s') !! length (playlists (config s)) = Some playlist_url ∧
  (disk_writable (world s) = true →
   config_file (world s') = Some (JsonText (settings_json (config s')))) ∧
  last (replies (world s')) =
    Some (effective_user update,
          RPlaylistAdded (length (resolved env playlist_url))
                         (S (length (playlists (config s))))).
Proof.
  intros Hshape Hnew Hsome s'. unfold s'. rewrite add_playlist_command_run.
  rewrite Hshape. cbn [negb]. rewrite bool_decide_false by done. cbn zeta.
  destruct (resolved env playlist_url) as [|v vs] eqn:Hr; [done|].
  cbn [fst snd]. split; [done|]. split; [done|]. split; [|split; [|split]].
  - intros i p Hi. cbn. by apply lookup_app_l_Some.
  - cbn. by rewrite lookup_app_r, Nat.sub_diag.
  - cbn. intros Hw. apply persist_writable. unfold resolve_logged.
    by destruct (extract_playlist env playlist_url) as [[?|]|?].
  - cbn. rewrite last_snoc, length_app, Nat.add_comm. done.
Qed.

(** The second playlist is added to the sample bot: it becomes number 2. *)
Lemma add_playlist_appends_witness :
  let s := sample_bot false 50 in
  let s' := snd (add_playlist_command gappy_playlist_env recipient
                   {| args := [second_playlist] |} s) in
  playlists (config s') = [sample_playlist; second_playlist] ∧
  last (replies (world s')) = Some (7, RPlaylistAdded 3 2).
Proof.
  intros s s'.
  destruct (add_playlist_appends gappy_playlist_env recipient second_playlist [] s)
    as (_ & Hcfg & _ & _ & _ & Hreply).
  { reflexivity. }
  { change (second_playlist ∉ [sample_playlist]).
    intros Hin. apply list_elem_of_singleton in Hin. discriminate Hin. }
  { discriminate. }
  split; [exact (f_equal playlists Hcfg)|exact Hreply].
Defined.

(** ** [remove_playlist] *)

Lemma remove_playlist_command_in_range env update arg rest n (s : St) :
  py_int env arg = Some n →
  1 ≤ n ≤ Z.of_nat (length (playlists (config s))) →
  ∃ removed_playlist,
    playlists (config s) !! Z.to_nat (n - 1) = Some removed_playlist ∧
    remove_playlist_command env update {| args := arg :: rest |} s =
      let cfg' := set_playlists (delete (Z.to_nat (n - 1)) (playlists (config s)))
                                (config s) in
      (Ret tt,
       replied update (RPlaylistRemoved n removed_playlist)
         (set_world (persist cfg' (world s)) (set_config cfg' s))).
Proof.
  intros Hint Hrange.
  destruct (lookup_lt_is_Some_2 (playlists (config s)) (Z.to_nat (n - 1)))
    as [removed_playlist Hremoved]; [lia|].
  exists removed_playlist. split; [done|].
  unfold remove_playlist_command. state_simpl. rewrite Hint. mrun.
  rewrite (proj2 (Z.leb_le 0 (n - 1))) by lia.
  rewrite (proj2 (Z.ltb_lt (n - 1) _)) by lia.
  state_simpl. rewrite Hremoved. mrun.
  by replace (n - 1 + 1) with n by lia.
Qed.

Lemma remove_playlist_command_out_of_range env update arg rest n (s : St) :
  py_int env arg = Some n →
  n < 1 ∨ Z.of_nat (length (playlists (config s))) < n →
  remove_playlist_command env update {| args := arg :: rest |} s =
    (Ret tt, replied update RInvalidPlaylistNumber s).
Proof.
  intros Hint Hrange. unfold remove_playlist_command. state_simpl.
  rewrite Hint. mrun.
  destruct Hrange as [Hlow|Hhigh].
  - rewrite (proj2 (Z.leb_gt 0 (n - 1))) by lia. state_simpl. by mrun.
  - rewrite (proj2 (Z.ltb_ge (n - 1) _)) by lia.
    rewrite andb_false_r. by mrun.
Qed.

(** X4. [remove_playlist] without an argument, with an argument that is not
    a number, or with a number below 1 or above the number of playlists,
    changes nothing of the bot (record, settings file, scheduler) but for the
    one reply that says what was wrong. *)
Theorem remove_playlist_rejects env update context (s : St) :
  args context = [] ∨
  (∃ arg rest, args context = arg :: rest ∧
     (py_int env arg = None ∨
      ∃ n, py_int env arg = Some n ∧
           (n < 1 ∨ Z.of_nat (length (playlists (config s))) < n))) →
  remove_playlist_command env update context s =
    (Ret tt,
     replied update
       (match args context with
        | [] => RNeedPlaylistNumber
        | arg :: _ => match py_int env arg with
                      | None => RNotANumber
                      | Some _ => RInvalidPlaylistNumber
                      end
        end) s).
Proof.
  destruct context as [l]. cbn [args].
  intros [->|(arg & rest & -> & [Hnone|(n & Hint & Hrange)])].
  - done.
  - unfold remove_playlist_command. state_simpl. rewrite Hnone. by mrun.
  - rewrite Hint. by apply (remove_playlist_command_out_of_range _ _ _ _ n).
Qed.

(** [/remove_playlist 5] on the bot with three playlists. *)
Lemma remove_playlist_rejects_witness :
  remove_playlist_command (sample_env 0) recipient {| args := ["5"] |} three_playlists_bot =
    (Ret tt, replied recipient RInvalidPlaylistNumber three_playlists_bot).
Proof.
  apply (remove_playlist_rejects (sample_env 0) recipient {| args := ["5"] |}
           three_playlists_bot).
  right. exists "5", []. split; [reflexivity|]. right. exists 5.
  split; [reflexivity|]. right. cbn. lia.
Defined.

(** X5. [remove_playlist n] with [1 ≤ n ≤] the number of playlists removes
    the playlist numbered [n] and no other: the list is one shorter, the
    playlists before it keep their numbers, those after it move down by one,
    the rest of the record is unchanged, the record is saved, and the reply
    names the number and the URL removed. *)
Theorem remove_playlist_removes_numbered env update arg rest n (s : St) :
  py_int env arg = Some n →
  1 ≤ n ≤ Z.of_nat (length (playlists (config s))) →
  let l := playlists (config s) in
  let s' := snd (remove_playlist_command env update {| args := arg :: rest |} s) in
  fst (remove_playlist_command env update {| args := arg :: rest |} s) = Ret tt ∧
  config s' = set_playlists (delete (Z.to_nat (n - 1)) l) (config s) ∧
  S (length (playlists (config s'))) = length l ∧
  (∀ i, (i < Z.to_nat (n - 1))%nat → playlists (config s') !! i = l !! i) ∧
  (∀ i, (Z.to_nat (n - 1) ≤ i)%nat → playlists (config s') !! i = l !! S i) ∧
  (disk_writable (world s) = true →
   config_file (world s') = Some (JsonText (settings_json (config s')))) ∧
  ∃ removed_playlist,
    l !! Z.to_nat (n - 1) = Some removed_playlist ∧
    last (replies (world s')) =
      Some (effective_user update, RPlaylistRemoved n removed_playlist).
Proof.
  intros Hint Hrange l s'. unfold s', l.
  destruct (remove_playlist_command_in_range env update arg rest n s Hint Hrange)
    as (removed_playlist & Hremoved & ->).
  cbn. split; [done|]. split; [done|]. split; [|split; [|split; [|split]]].
  - rewrite length_delete by eauto.
    apply lookup_lt_Some in Hremoved. lia.
  - intros i Hi. by apply list_lookup_delete_lt.
  - intros i Hi. by apply list_lookup_delete_ge.
  - intros Hw. by apply persist_writable.
  - exists removed_playlist. split; [done|]. by rewrite last_snoc.
Qed.

(** [/remove_playlist 1] on the bot with three playlists: the second and
    the third become numbers 1 and 2. *)
Lemma remove_playlist_removes_numbered_witness :
  let s' := snd (remove_playlist_command (sample_env 0) recipient {| args := ["1"] |}
                   three_playlists_bot) in
  playlists (config s') = [second_playlist; third_playlist] ∧
  config_file (world s') = Some (JsonText (settings_json (config s'))).
Proof.
  intros s'.
  destruct (remove_playlist_removes_numbered (sample_env 0) recipient "1" [] 1
              three_playlists_bot) as (_ & Hcfg & _ & _ & _ & Hfile & _).
  { reflexivity. }
  { cbn. lia. }
  split; [exact (f_equal playlists Hcfg)|]. apply Hfile. reflexivity.
Defined.

(** X6. Adding a playlist and then removing the playlist with the last
    number gives back the list of playlists there was: what [add_playlist]
    appends is what [remove_playlist] of the last number takes away. *)
Theorem add_then_remove_last env env' update update' playlist_url rest arg rest'
    (s : St) :
  playlist_shaped playlist_url = true →
  playlist_url ∉ playlists (config s) →
  resolved env playlist_url ≠ [] →
  py_int env' arg = Some (Z.of_nat (length (playlists (config s))) + 1) →
  let s1 := snd (add_playlist_command env update {| args := playlist_url :: rest |} s) in
  let s2 := snd (remove_playlist_command env' update' {| args := arg :: rest' |} s1) in
  config s2 = config s ∧
  last (replies (world s2)) =
    Some (effective_user update',
          RPlaylistRemoved (Z.of_nat (length (playlists (config s))) + 1) playlist_url).
Proof.
  intros Hshape Hnew Hsome Hint s1 s2.
  assert (Hcfg1 : config s1 =
                    set_playlists (playlists (config s) ++ [playlist_url]) (config s)).
  { unfold s1. rewrite add_playlist_command_run, Hshape. cbn [negb].
    rewrite bool_decide_false by done. cbn zeta.
    by destruct (resolved env playlist_url). }
  assert (Hlen : length (playlists (config s1)) = S (length (playlists (config s)))).
  { rewrite Hcfg1. cbn. rewrite length_app. cbn. lia. }
  destruct (remove_playlist_command_in_range env' update' arg rest' _ s1 Hint)
    as (removed_playlist & Hremoved & Hrun); [lia|].
  unfold s2. rewrite Hrun. cbn.
  replace (Z.to_nat (Z.of_nat (length (playlists (config s))) + 1 - 1))
    with (length (playlists (config s))) in * by lia.
  rewrite Hcfg1 in *. cbn in *.
  rewrite lookup_app_r, Nat.sub_diag in Hremoved by done.
  injection Hremoved as <-.
  rewrite delete_middle, app_nil_r, last_snoc. split; [|done].
  by destruct (config s).
Qed.

(** The second playlist is added to the sample bot and playlist 2 is
    removed. *)
Lemma add_then_remove_last_witness :
  let s := sample_bot false 50 in
  let s1 := snd (add_playlist_command gappy_playlist_env recipient
                   {| args := [second_playlist] |} s) in
  let s2 := snd (remove_playlist_command (decimal_env 0) recipient
                   {| args := ["2"] |} s1) in
  config s2 = config s.
Proof.
  intros s s1 s2.
  apply (add_then_remove_last gappy_playlist_env (decimal_env 0) recipient recipient
           second_playlist [] "2" [] s).
  - reflexivity.
  - change (second_playlist ∉ [sample_playlist]).
    intros Hin. apply list_elem_of_singleton in Hin. discriminate Hin.
  - discriminate.
  - reflexivity.
Defined.

(** ** [setup_scheduler], [enable], [disable] and [set_interval], in full *)

(** The trigger of an interval of at least one minute can be built exactly
    when the first run, one interval from now, falls within the year 9999. *)
Lemma trigger_fits_spec env n :
  1 ≤ n → 0 ≤ now env →
  trigger_fits env n = true ↔ now env + 60000000 * n ≤ datetime_max.
Proof.
  intros Hn Hnow. unfold trigger_fits, IntervalTrigger, timedelta, datetime_add.
  unfold datetime_max.
  destruct (Z.leb_spec (-999999999) (n / 1440)), (Z.leb_spec (n / 1440) 999999999);
    cbn [andb]; try (split; [done|intros; Z.div_mod_to_equations; lia]).
  destruct (Z.eqb_spec (n * 60000000) 0); [lia|].
  destruct (Z.leb_spec 0 (now env + n * 60000000)); [|lia].
  destruct (Z.leb_spec (now env + n * 60000000) (3652059 * 86400000000 - 1));
    cbn [andb]; split; (done || lia).
Qed.

Lemma IntervalTrigger_raises t minutes e :
  IntervalTrigger t minutes = Raise e → e = OverflowError.
Proof.
  unfold IntervalTrigger, timedelta, datetime_add.
  destruct (_ && _)%bool; [|by intros [= <-]].
  destruct (_ && _)%bool; [done|by intros [= <-]].
Qed.

(** [setup_scheduler] from a scheduler that is [sched_ok]: it raises exactly
    when the record wants a job whose trigger cannot be built. *)
Lemma setup_scheduler_run env (s : St) :
  sched_ok (scheduler s) →
  setup_scheduler env s =
    (if wants_job (config s) && negb (trigger_fits env (interval_minutes (config s)))
     then Raise OverflowError else Ret tt,
     rescheduled env s).
Proof.
  destruct s as [uid cfg [r pending store] w].
  unfold sched_ok, rescheduled, installs_job, wants_job, trigger_fits.
  cbn [scheduler config Sched.pending_jobs Sched.jobstore Sched.running].
  intros [-> Hstore].
  unfold setup_scheduler, Sched.remove_all_jobs, Sched.add_job, Sched.start.
  unfold_monad.
  destruct r; cbn; destruct (enabled cfg); cbn; destruct (playlists cfg); cbn;
    try (destruct (IntervalTrigger _ _) as [start|e] eqn:Htrigger;
         [|apply IntervalTrigger_raises in Htrigger as ->]); cbn;
    destruct Hstore as [->|[Hr [minutes ->]]]; done.
Qed.

Lemma bind_setup_scheduler {B} env (k : unit → M St B) (s : St) :
  sched_ok (scheduler s) →
  (wants_job (config s) = true →
   trigger_fits env (interval_minutes (config s)) = true) →
  bind (setup_scheduler env) k s = k tt (rescheduled env s).
Proof.
  intros Hok Hfits. apply bind_run. rewrite setup_scheduler_run by done.
  destruct (wants_job (config s)); [|done]. by rewrite Hfits.
Qed.

Lemma bind_setup_scheduler_overflow {B} env (k : unit → M St B) (s : St) :
  sched_ok (scheduler s) →
  wants_job (config s) = true →
  trigger_fits env (interval_minutes (config s)) = false →
  bind (setup_scheduler env) k s = (Raise OverflowError, rescheduled env s).
Proof.
  intros Hok Hwants Hfits. unfold bind. rewrite setup_scheduler_run by done.
  by rewrite Hwants, Hfits.
Qed.

(** [enable] on a bot with a playlist: the reply comes after the set-up of
    the scheduler, so there is none when the trigger cannot be built. *)
Lemma enable_command_run env update context (s : St) :
  playlists (config s) ≠ [] →
  sched_ok (scheduler s) →
  enable_command env update context s =
    let s1 := rescheduled env (saved_as (set_enabled true (config s)) s) in
    if trigger_fits env (interval_minutes (config s))
    then (Ret tt,
          replied update
            (REnabled (interval_minutes (config s)) (download_format (config s))) s1)
    else (Raise OverflowError, s1).
Proof.
  intros Hsome Hok. unfold enable_command. mrun.
  destruct (playlists (config s)) eqn:Hp; [done|]. mrun.
  destruct (trigger_fits env (interval_minutes (config s))) eqn:Hfits.
  - rewrite bind_setup_scheduler by done. mrun.
    unfold saved_as, rescheduled, installs_job, wants_job. cbn. rewrite Hp, Hfits.
    by destruct s.
  - rewrite bind_setup_scheduler_overflow; [|done|by cbn; rewrite Hp|done].
    unfold saved_as, rescheduled, installs_job, wants_job. cbn. rewrite Hp, Hfits.
    by destruct s.
Qed.

(** X7. [enable] on a bot that has a playlist, at an interval whose trigger
    can be built (the first run falls before the end of the year 9999), sets
    [enabled], changes nothing else in the record, saves it, and leaves the
    scheduler running with exactly one job, at the interval of the record;
    the reply gives the interval and the format. *)
Theorem enable_installs_the_job env update context (s : St) :
  playlists (config s) ≠ [] →
  sched_ok (scheduler s) →
  trigger_fits env (interval_minutes (config s)) = true →
  let s' := snd (enable_command env update context s) in
  fst (enable_command env update context s) = Ret tt ∧
  config s' = set_enabled true (config s) ∧
  (disk_writable (world s) = true →
   config_file (world s') = Some (JsonText (settings_json (config s')))) ∧
  Sched.running (scheduler s') = true ∧
  Sched.all_jobs (scheduler s') = [send_music_job (interval_minutes (config s))] ∧
  last (replies (world s')) =
    Some (effective_user update,
          REnabled (interval_minutes (config s)) (download_format (config s))).
Proof.
  intros Hsome Hok Hfits s'. unfold s'. rewrite enable_command_run by done.
  cbn zeta. rewrite Hfits.
  unfold rescheduled, saved_as, installs_job, wants_job. cbn.
  destruct (playlists (config s)) eqn:Hp; [done|]. rewrite Hfits. cbn.
  split; [done|]. split; [done|]. split; [|split; [done|split; [done|]]].
  - intros Hw. by apply persist_writable.
  - by rewrite last_snoc.
Qed.

(** [/enable] on the sample bot, on 2026-01-01. *)
Lemma enable_installs_the_job_witness :
  let s' := snd (enable_command (sample_env 0) recipient {| args := [] |}
                   (sample_bot false 50)) in
  enabled (config s') = true ∧
  Sched.all_jobs (scheduler s') = [send_music_job 1].
Proof.
  intros s'.
  destruct (enable_installs_the_job (sample_env 0) recipient {| args := [] |}
              (sample_bot false 50))
    as (_ & Hcfg & _ & _ & Hjobs & _).
  { discriminate. }
  { apply sched_ok_new. }
  { reflexivity. }
  split; [exact (f_equal enabled Hcfg)|exact Hjobs].
Defined.

Lemma disable_command_run update context (s : St) :
  sched_ok (scheduler s) →
  disable_command update context s =
    (Ret tt,
     replied update RDisabled
       (set_scheduler
          {| Sched.running := Sched.running (scheduler s); Sched.pending_jobs := [];
             Sched.jobstore := [] |}
          (saved_as (set_enabled false (config s)) s))).
Proof.
  destruct s as [uid cfg [r pending store] w]. intros [Hp Hstore].
  cbn in Hp, Hstore. subst pending.
  unfold disable_command. rewrite bind_modify, bind_save_config, bind_gets.
  state_simpl. cbn [Sched.running].
  unfold in_scheduler, zoom, Sched.remove_all_jobs, bind, ret, reply_text, in_world,
    modify, zoom, saved_as, replied.
  destruct r; cbn; [done|].
  by destruct Hstore as [->|[Hr _]].
Qed.

Lemma send_random_music_idle env context (s : St) :
  playlists (config s) = [] ∨ enabled (config s) = false →
  send_random_music env context s =
    (Ret tt,
     logged (match playlists (config s) with
             | [] => LogNoPlaylistsConfigured
             | _ :: _ => LogBotDisabled
             end) s).
Proof.
  intros Hidle. unfold send_random_music, try_except. rewrite bind_gets.
  destruct (playlists (config s)) as [|p ps] eqn:Hp.
  - by rewrite logger_run.
  - destruct Hidle as [?|Hoff]; [done|]. rewrite Hoff. state_simpl.
    by rewrite logger_run.
Qed.

(** X8. [disable] clears [enabled], changes nothing else in the record,
    saves it and leaves the scheduler without a job; and from then on a cycle,
    whoever starts it, ends at its first tests: it makes no scratch
    directory, sends nothing and only writes one line to the log. *)
Theorem disable_stops_cycles update context (s : St) :
  sched_ok (scheduler s) →
  let s' := snd (disable_command update context s) in
  fst (disable_command update context s) = Ret tt ∧
  config s' = set_enabled false (config s) ∧
  (disk_writable (world s) = true →
   config_file (world s') = Some (JsonText (settings_json (config s')))) ∧
  Sched.all_jobs (scheduler s') = [] ∧
  ∀ env trigger,
    send_random_music env trigger s' =
      (Ret tt,
       logged (match playlists (config s) with
               | [] => LogNoPlaylistsConfigured
               | _ :: _ => LogBotDisabled
               end) s').
Proof.
  intros Hok s'. unfold s'. rewrite disable_command_run by done. cbn [fst snd].
  split; [done|]. split; [done|]. split; [|split; [done|]].
  - cbn. intros Hw. by apply persist_writable.
  - intros env trigger. rewrite send_random_music_idle; [done|]. by right.
Qed.

(** [/disable] on the running sample bot, then [/send_now]. *)
Lemma disable_stops_cycles_witness :
  let s' := snd (disable_command recipient {| args := [] |} running_bot) in
  Sched.all_jobs (scheduler running_bot) = [send_music_job 1] ∧
  Sched.all_jobs (scheduler s') = [] ∧
  sent (world (snd (send_random_music (sample_env 3145728)
                      (Some {| args := [] |}) s'))) = [].
Proof.
  intros s'.
  assert (Hok : sched_ok (scheduler running_bot)).
  { apply sched_ok_setup, sched_ok_new. }
  destruct (disable_stops_cycles recipient {| args := [] |} running_bot Hok)
    as (_ & _ & _ & Hjobs & Hcycle).
  split; [reflexivity|]. split; [exact Hjobs|].
  fold s' in Hcycle. by rewrite Hcycle.
Defined.

(** [set_interval n] with [n ≥ 1]: the record is changed and saved before
    the scheduler is set up, and the reply comes after, so when the trigger
    cannot be built the new interval is kept and nothing is replied. *)
Lemma set_interval_command_run env update arg rest n (s : St) :
  py_int env arg = Some n →
  1 ≤ n →
  sched_ok (scheduler s) →
  set_interval_command env update {| args := arg :: rest |} s =
    let s1 := saved_as (set_interval_minutes n (config s)) s in
    if wants_job (config s) && negb (trigger_fits env n)
    then (Raise OverflowError, rescheduled env s1)
    else (Ret tt,
          replied update (RIntervalSet n)
            (if enabled (config s) then rescheduled env s1 else s1)).
Proof.
  intros Hint Hn Hok. unfold set_interval_command. state_simpl. rewrite Hint.
  rewrite (proj2 (Z.ltb_ge n 1)) by lia. mrun.
  cbn [enabled set_interval_minutes]. unfold saved_as, wants_job.
  destruct (enabled (config s)) eqn:Hen; cbn [andb]; [|by mrun].
  destruct (match playlists (config s) with [] => false | _ => true end) eqn:Hp;
    cbn [andb].
  - destruct (trigger_fits env n) eqn:Hfits; cbn [negb].
    + rewrite bind_setup_scheduler by done. by mrun.
    + rewrite bind_setup_scheduler_overflow; [done|done| |done].
      unfold wants_job. cbn. by rewrite Hen, Hp.
  - rewrite bind_setup_scheduler; [by mrun|done|].
    unfold wants_job. cbn. by rewrite Hen, Hp.
Qed.

(** X9. [set_interval n] with a number [n ≥ 1], on a bot that needs no job
    or at an interval whose trigger can be built (the first run falls before
    the end of the year 9999), sets the interval of the record to [n],
    changes nothing else in it and saves it; a [status] asked next reports
    exactly [n]; and the scheduler follows: on an enabled bot it holds the one
    job at the new interval (or none, when there is no playlist), on a bot
    that is not enabled it is left as it was. *)
Theorem set_interval_takes_effect env update arg rest n update' context' (s : St) :
  py_int env arg = Some n →
  1 ≤ n →
  sched_ok (scheduler s) →
  (wants_job (config s) = true → trigger_fits env n = true) →
  let s' := snd (set_interval_command env update {| args := arg :: rest |} s) in
  fst (set_interval_command env update {| args := arg :: rest |} s) = Ret tt ∧
  config s' = set_interval_minutes n (config s) ∧
  (disk_writable (world s) = true →
   config_file (world s') = Some (JsonText (settings_json (config s')))) ∧
  last (replies (world s')) = Some (effective_user update, RIntervalSet n) ∧
  last (replies (world (snd (status_command update' context' s')))) =
    Some (effective_user update',
          RStatus (enabled (config s)) n (download_format (config s))
                  (max_file_size_mb (config s)) (length (playlists (config s)))) ∧
  (if enabled (config s)
   then Sched.all_jobs (scheduler s') =
          match playlists (config s) with
          | [] => []
          | _ :: _ => [send_music_job n]
          end
   else scheduler s' = scheduler s).
Proof.
  intros Hint Hn Hok Hfits s'. unfold s'.
  rewrite (set_interval_command_run env update arg rest n s) by done.
  cbn zeta. unfold wants_job in *.
  unfold status_command. rewrite bind_gets, reply_text_run.
  destruct (enabled (config s)) eqn:Hen; cbn [andb] in *.
  - destruct (playlists (config s)) eqn:Hp; cbn [andb negb] in *.
    + unfold rescheduled, saved_as, installs_job, wants_job.
      cbn [config set_config set_world set_interval_minutes enabled playlists
             interval_minutes fst snd].
      rewrite Hen, Hp. cbn. rewrite !last_snoc.
      split; [done|split; [done|split; [|split; [done|split; [by rewrite Hen, Hp|done]]]]].
      intros Hw. by apply persist_writable.
    + rewrite Hfits by done.
      unfold rescheduled, saved_as, installs_job, wants_job.
      cbn [config set_config set_world set_interval_minutes enabled playlists
             interval_minutes fst snd negb].
      rewrite Hen, Hp, Hfits by done. cbn. rewrite !last_snoc.
      split; [done|split; [done|split; [|split; [done|split; [by rewrite Hen, Hp|done]]]]].
      intros Hw. by apply persist_writable.
  - unfold saved_as. cbn. rewrite !last_snoc.
    split; [done|split; [done|split; [|split; [done|split; [by rewrite Hen|done]]]]].
    intros Hw. by apply persist_writable.
Qed.

(** [/set_interval 15] on the running sample bot, on 2026-01-01. *)
Lemma set_interval_takes_effect_witness :
  let s' := snd (set_interval_command (decimal_env 0) recipient {| args := ["15"] |}
                   running_bot) in
  interval_minutes (config s') = 15 ∧
  Sched.all_jobs (scheduler s') = [send_music_job 15] ∧
  last (replies (world (snd (status_command recipient {| args := [] |} s')))) =
    Some (7, RStatus true 15 "audio" 50 1%nat).
Proof.
  intros s'.
  assert (Hok : sched_ok (scheduler running_bot)).
  { apply sched_ok_setup, sched_ok_new. }
  destruct (set_interval_takes_effect (decimal_env 0) recipient "15" [] 15
              recipient {| args := [] |} running_bot eq_refl ltac:(lia) Hok
              (λ _, eq_refl))
    as (_ & Hcfg & _ & _ & Hstatus & Hjobs).
  split; [exact (f_equal interval_minutes Hcfg)|]. split; [exact Hjobs|exact Hstatus].
Defined.

(** X10. [set_interval] without an argument, with an argument that is not a
    number, or with a number below 1, changes nothing of the bot (record,
    settings file, scheduler) but for the one reply that says what was
    wrong. *)
Theorem set_interval_rejects env update context (s : St) :
  args context = [] ∨
  (∃ arg rest, args context = arg :: rest ∧
     (py_int env arg = None ∨ ∃ n, py_int env arg = Some n ∧ n < 1)) →
  set_interval_command env update context s =
    (Ret tt,
     replied update
       (match args context with
        | [] => RNeedInterval
        | arg :: _ => match py_int env arg with
                      | None => RIntervalNotANumber
                      | Some _ => RIntervalTooSmall
                      end
        end) s).
Proof.
  destruct context as [l]. cbn [args].
  intros [->|(arg & rest & -> & [Hnone|(n & Hint & Hlow)])].
  - done.
  - unfold set_interval_command. state_simpl. rewrite Hnone. by mrun.
  - unfold set_interval_command. state_simpl. rewrite Hint.
    rewrite (proj2 (Z.ltb_lt n 1)) by done. by mrun.
Qed.

(** [/set_interval 0] and [/set_interval soon] on the running sample bot. *)
Lemma set_interval_rejects_witness :
  set_interval_command (decimal_env 0) recipient {| args := ["0"] |} running_bot =
    (Ret tt, replied recipient RIntervalTooSmall running_bot) ∧
  set_interval_command (decimal_env 0) recipient {| args := ["soon"] |} running_bot =
    (Ret tt, replied recipient RIntervalNotANumber running_bot).
Proof.
  split.
  - apply (set_interval_rejects (decimal_env 0) recipient {| args := ["0"] |}
             running_bot).
    right. exists "0", []. split; [reflexivity|]. right. exists 0.
    split; [reflexivity|lia].
  - apply (set_interval_rejects (decimal_env 0) recipient {| args := ["soon"] |}
             running_bot).
    right. exists "soon", []. split; [reflexivity|]. by left.
Defined.

(** ** The record and the scheduler over a run *)

Lemma set_interval_command_config env update context (s : St) :
  config (snd (set_interval_command env update context s)) =
    match args context with
    | [] => config s
    | arg :: _ =>
        match py_int env arg with
        | None => config s
        | Some n => if n <? 1 then config s else set_interval_minutes n (config s)
        end
    end.
Proof.
  unfold set_interval_command. destruct (args context) as [|arg rest]; [done|].
  destruct (py_int env arg) as [n|]; [|done].
  destruct (n <? 1); [done|]. mrun.
  cbn [enabled set_interval_minutes]. destruct (enabled (config s)); [|by mrun].
  match goal with
  | |- context [bind (setup_scheduler env) ?k ?s0] =>
      pose proof (setup_scheduler_frame env s0) as (Hcfg & _); unfold bind at 1;
      destruct (setup_scheduler env s0) as [[[]|e] s'] eqn:Hsetup
  end; simpl in Hcfg; mrun; simpl; by rewrite Hcfg.
Qed.

Lemma set_format_command_config update context (s : St) :
  config (snd (set_format_command update context s)) =
    match args context with
    | [] => config s
    | arg :: _ =>
        if bool_decide (lower arg ∈ ["audio"; "video"])
        then set_download_format (lower arg) (config s)
        else config s
    end.
Proof.
  unfold set_format_command. destruct (args context) as [|arg rest]; [done|].
  cbn zeta. destruct (bool_decide (lower arg ∈ ["audio"; "video"])); cbn [negb];
    by mrun.
Qed.

Lemma config_remove_all_jobs (s : St) :
  config (snd (in_scheduler Sched.remove_all_jobs s)) = config s.
Proof.
  unfold in_scheduler, zoom. by destruct (Sched.remove_all_jobs (scheduler s)).
Qed.

(** X11. Over every run of the bot (start-up, commands of anybody, firings)
    the record keeps an interval of at least one minute and a format that is
    [audio] or [video], once it has them, and its size limit never
    changes. *)
Theorem settings_stay_valid limit evs (s : St) :
  settings_valid limit (config s) →
  settings_valid limit (config (run_events evs s)).
Proof.
  pose (P := λ s : St, settings_valid limit (config s)).
  assert (Hsetup : ∀ env, maintains P (setup_scheduler env)).
  { intros env s0 Hs0. unfold P. by destruct (setup_scheduler_frame env s0) as (-> & _). }
  assert (Hremove : maintains P (in_scheduler Sched.remove_all_jobs)).
  { intros s0 Hs0. unfold P. by rewrite config_remove_all_jobs. }
  apply (run_events_maintains P); [done|done|].
  intros env command handler update context.
  apply (handlers_cases env command handler (λ h, maintains P (h update context))).
  - by apply maintains_start_command.
  - by apply maintains_help_command.
  - by apply maintains_status_command.
  - by apply maintains_enable_command.
  - by apply maintains_disable_command.
  - by apply maintains_add_playlist_command.
  - by apply maintains_remove_playlist_command.
  - by apply maintains_list_playlists_command.
  - intros s0 Hs0. unfold P. rewrite set_interval_command_config.
    destruct (args context) as [|arg rest]; [done|].
    destruct (py_int env arg) as [n|]; [|done].
    destruct (Z.ltb_spec n 1); [done|].
    destruct Hs0 as (_ & Hfmt & Hlimit). by split.
  - intros s0 Hs0. unfold P. rewrite set_format_command_config.
    destruct (args context) as [|arg rest]; [done|].
    destruct (bool_decide (lower arg ∈ ["audio"; "video"])) eqn:Hd; [|done].
    apply format_choice_spec in Hd.
    destruct Hs0 as (Hint & _ & Hlimit). by split.
  - by apply maintains_send_now_command.
Qed.

(** The busy run, from a first run: the refused interval and format left no
    trace, the accepted ones are there. *)
Lemma settings_stay_valid_witness :
  let s := run_events busy_run (first_run 7 empty_world) in
  settings_valid 50 (config s) ∧
  interval_minutes (config s) = 30 ∧
  download_format (config s) = "video".
Proof.
  intros s. split; [|split; reflexivity].
  apply (settings_stay_valid 50 busy_run (first_run 7 empty_world)).
  split; [cbn; lia|]. split; [by left|reflexivity].
Defined.

Lemma job_follows_rescheduled env (s : St) : job_follows_settings (rescheduled env s).
Proof.
  unfold job_follows_settings, rescheduled, installs_job, wants_job.
  destruct (enabled (config s)) eqn:Hen; cbn [andb].
  - destruct (playlists (config s)); cbn [andb].
    + split; [split; [done|by left]|by left].
    + destruct (trigger_fits env (interval_minutes (config s))).
      * split; [split; [done|right; eauto]|by right].
      * split; [split; [done|by left]|by left].
  - cbn. split; [split; [done|by left]|by left].
Qed.

Lemma job_follows_replied update r (s : St) :
  job_follows_settings s → job_follows_settings (replied update r s).
Proof. done. Qed.

Lemma job_follows_enable_command env update context :
  maintains job_follows_settings (enable_command env update context).
Proof.
  intros s [Hok Hjob]. destruct (playlists (config s)) eqn:Hp.
  - rewrite enable_command_empty by done. by split.
  - rewrite enable_command_run by (done || by rewrite Hp). cbn zeta.
    destruct (trigger_fits env (interval_minutes (config s))); cbn [snd].
    + apply job_follows_replied, job_follows_rescheduled.
    + apply job_follows_rescheduled.
Qed.

Lemma job_follows_disable_command update context :
  maintains job_follows_settings (disable_command update context).
Proof.
  intros s [Hok Hjob]. rewrite disable_command_run by done.
  split; cbn; [|by left]. split; [done|by left].
Qed.

Lemma job_follows_setup_scheduler env :
  maintains job_follows_settings (setup_scheduler env).
Proof.
  intros s [Hok Hjob]. rewrite setup_scheduler_run by done.
  apply job_follows_rescheduled.
Qed.

Lemma job_follows_set_interval_command env update context :
  maintains job_follows_settings (set_interval_command env update context).
Proof.
  intros s [Hok Hjob]. destruct context as [[|arg rest]]; [by split|].
  destruct (py_int env arg) as [n|] eqn:Hint.
  2:{ unfold set_interval_command. cbn [args]. rewrite Hint. by split. }
  destruct (Z.ltb_spec n 1) as [Hlow|Hn].
  { unfold set_interval_command. cbn [args]. rewrite Hint.
    rewrite (proj2 (Z.ltb_lt n 1)) by done. by split. }
  rewrite (set_interval_command_run env update arg rest n s) by done.
  cbn zeta.
  destruct (wants_job (config s) && negb (trigger_fits env n))%bool; cbn [snd];
    [apply job_follows_rescheduled|].
  apply job_follows_replied.
  destruct (enabled (config s)) eqn:Hen; [apply job_follows_rescheduled|].
  destruct Hjob as [Hnone|[? _]]; [|congruence].
  split; cbn; [done|by left].
Qed.

(** X12. Over every run of a bot whose scheduler was newly built (start-up,
    commands of anybody, firings), the scheduler holds either no job or
    exactly the job [send_music_job] at the interval the record has now, and
    it holds a job only while the record is enabled. *)
Theorem job_follows_the_settings uid cfg w evs :
  let s := run_events evs (fresh_bot uid cfg w) in
  Sched.all_jobs (scheduler s) = [] ∨
  enabled (config s) = true ∧
  Sched.all_jobs (scheduler s) = [send_music_job (interval_minutes (config s))].
Proof.
  intros s.
  assert (Hs : job_follows_settings s).
  { apply (run_events_maintains job_follows_settings).
    - by intros w0 s0 [Hok Hjob].
    - apply job_follows_setup_scheduler.
    - intros env command handler update context.
      apply (handlers_cases env command handler
               (λ h, maintains job_follows_settings (h update context))).
      + by apply maintains_start_command.
      + by apply maintains_help_command.
      + by apply maintains_status_command.
      + apply job_follows_enable_command.
      + apply job_follows_disable_command.
      + by apply maintains_add_playlist_command.
      + by apply maintains_remove_playlist_command.
      + by apply maintains_list_playlists_command.
      + apply job_follows_set_interval_command.
      + by apply maintains_set_format_command.
      + by apply maintains_send_now_command.
    - split; [apply sched_ok_new|by left]. }
  destruct Hs as [[Hpending _] Hjob]. unfold Sched.all_jobs. rewrite Hpending. cbn.
  rewrite app_nil_r. exact Hjob.
Qed.

(** ** The cycle, in full *)

Lemma bot_send_run env context kind file_path video_url (s : St) :
  bot_send env context kind file_path video_url s =
    match context with
    | None => (Raise AttributeError, s)
    | Some _ =>
        match find_file file_path (tmp (world s)) with
        | None => (Raise FileNotFoundError, s)
        | Some _ =>
            match send_error env with
            | Some e => (Raise e, s)
            | None =>
                (Ret tt,
                 set_world (add_sent (delivery_of kind file_path video_url s)
                                     (world s)) s)
            end
        end
    end.
Proof.
  unfold bot_send. destruct context as [c|]; [|done].
  rewrite bind_file_exists. destruct (find_file _ _); [|done].
  destruct (send_error env); [done|]. by rewrite bind_gets.
Qed.

Section KeepsSent.
Variable s0 : St.
Let P := same_outbox s0.

Lemma keeps_sent_in_world {A} (m : M World A) :
  keeps_sent m → maintains P (in_world m).
Proof.
  intros Hm s (Hsent & Hrest). unfold in_world, zoom.
  specialize (Hm (world s)). destruct (m (world s)) as [r w'].
  split; [|done]. cbn in *. by rewrite Hm.
Qed.

Lemma keeps_sent_logger ev : keeps_sent (logger ev).
Proof. by intros w. Qed.

Lemma keeps_sent_os_remove p : keeps_sent (os_remove p).
Proof.
  intros w. unfold os_remove. unfold_monad. by destruct (find_file p (tmp w)).
Qed.

Lemma keeps_sent_dir_exists d : keeps_sent (dir_exists d).
Proof. by intros w. Qed.

Lemma keeps_sent_listdir d : keeps_sent (listdir d).
Proof. intros w. unfold listdir. unfold_monad. by destruct (tmp w !! d). Qed.

Lemma keeps_sent_os_rmdir d : keeps_sent (os_rmdir d).
Proof.
  intros w. unfold os_rmdir. unfold_monad. by destruct (tmp w !! d) as [[|]|].
Qed.

End KeepsSent.

Lemma same_outbox_refl (s : St) : same_outbox s s.
Proof. done. Qed.

Lemma same_outbox_trans (s0 s1 s2 : St) :
  same_outbox s0 s1 → same_outbox s1 s2 → same_outbox s0 s2.
Proof.
  intros (? & ? & ? & ?) (? & ? & ? & ?).
  split; [congruence|]. split; [congruence|]. split; congruence.
Qed.

Lemma same_outbox_logged ev s0 s : same_outbox s0 s → same_outbox s0 (logged ev s).
Proof. by intros (? & ? & ? & ?). Qed.

(** The clean-up returns and leaves the outbox alone. *)
Lemma clean_up_returns file_path (s : St) :
  ∃ s', clean_up file_path s = (Ret tt, s') ∧ same_outbox s s'.
Proof.
  assert (Hbody : ∀ body : M St unit,
             maintains (same_outbox s) body →
             ∃ s', try_except body (λ e, in_world (logger (LogErrCleaningUp e))) s
                     = (Ret tt, s') ∧ same_outbox s s').
  { intros body Hbody. unfold try_except.
    specialize (Hbody s (same_outbox_refl s)).
    destruct (body s) as [[[]|e] s']; [by eauto|].
    rewrite logger_run. eexists. split; [done|].
    by apply (same_outbox_logged _ s s'). }
  apply Hbody.
  repeat first
    [ apply maintains_ret
    | apply keeps_sent_in_world;
      first [apply keeps_sent_logger | apply keeps_sent_os_remove
            | apply keeps_sent_dir_exists | apply keeps_sent_listdir
            | apply keeps_sent_os_rmdir]
    | apply maintains_bind; [|intros ?]
    | match goal with
      | |- maintains _ (match ?x with _ => _ end) => destruct x
      end ].
Qed.

(** The send returns, with the message added when it was given a context
    and the API took the file, with the failure logged otherwise. *)
Lemma send_file_run env context file_path video_url f (s : St) :
  find_file file_path (tmp (world s)) = Some f →
  send_file env context file_path video_url s =
    match context, send_error env with
    | Some _, None =>
        (Ret tt,
         logged LogSentFile
           (set_world (add_sent (delivery_of (kind_of s) file_path video_url s)
                                (world s)) s))
    | Some _, Some e => (Ret tt, logged (LogErrSending e) s)
    | None, _ => (Ret tt, logged (LogErrSending AttributeError) s)
    end.
Proof.
  intros Hfile. unfold send_file, try_except, kind_of. rewrite bind_gets.
  destruct (String.eqb (download_format (config s)) "audio");
    unfold bind at 1; rewrite bot_send_run, Hfile;
    destruct context as [c|]; try done;
    destruct (send_error env) as [e|]; done.
Qed.

Lemma cycle_cases env context (s : St) (Q : result unit * St → Prop) :
  (∀ s', same_outbox s s' → Q (Ret tt, s')) →
  (∀ s' d, sent (world s') = sent (world s) ++ [d] → cycle_delivery env s d →
           is_Some context → send_error env = None →
           user_id s' = user_id s → config s' = config s → scheduler s' = scheduler s →
           Q (Ret tt, s')) →
  Q (send_random_music env context s).
Proof.
  intros Hsame Hsent. unfold send_random_music. unfold try_except at 1.
  rewrite bind_gets.
  destruct (playlists (config s)) as [|p ps] eqn:Hp.
  { rewrite logger_run. by apply Hsame. }
  destruct (enabled (config s)); state_simpl; [|rewrite logger_run; by apply Hsame].
  unfold random_choice at 1.
  destruct ((p :: ps) !! _) as [playlist_url|] eqn:Hpick;
    [|rewrite bind_raise; cbn beta iota; rewrite logger_run; by apply Hsame].
  apply list_elem_of_lookup_2 in Hpick.
  rewrite bind_ret, bind_logger, bind_get_playlist_videos. state_simpl.
  set (s1 := set_world (resolve_logged env playlist_url
                          (add_log (LogSelectedPlaylist playlist_url) (world s))) s).
  assert (Hs1 : same_outbox s s1).
  { split; [|done]. unfold s1. state_simpl. by rewrite sent_resolve_logged. }
  destruct (resolved env playlist_url) as [|v vs] eqn:Hv.
  { rewrite logger_run. apply Hsame. by apply (same_outbox_logged _ s s1). }
  unfold random_choice at 1.
  destruct ((v :: vs) !! _) as [video_url|] eqn:Hvideo.
  2:{ rewrite bind_raise. cbn beta iota. rewrite logger_run. apply Hsame.
      by apply (same_outbox_logged _ s s1). }
  apply list_elem_of_lookup_2 in Hvideo.
  rewrite bind_ret, bind_logger, bind_gets. state_simpl.
  match goal with
  | |- context [bind (download_and_convert env ?u ?f) ?k ?s0] =>
      destruct (download_and_convert_frame env u f s0)
        as (r & s2 & Hrun & Hcfg2 & Hsched2 & Huid2 & _ & _ & Hsent2 & _);
      rewrite (bind_run _ _ _ _ _ Hrun)
  end.
  cbn [world set_world sent add_log config scheduler user_id] in Hsent2, Hcfg2, Hsched2, Huid2.
  rewrite sent_resolve_logged in Hsent2. cbn [sent add_log] in Hsent2.
  assert (Hs2 : same_outbox s s2) by done.
  destruct r as [file_path|]; [|by apply Hsame].
  rewrite bind_file_exists.
  destruct (find_file file_path (tmp (world s2))) as [f|] eqn:Hfile; [|by apply Hsame].
  fold (send_file env context file_path video_url). fold (clean_up file_path).
  unfold try_finally. rewrite (send_file_run _ _ _ _ f) by done.
  destruct context as [c|].
  2:{ destruct (clean_up_returns file_path (logged (LogErrSending AttributeError) s2))
        as (s4 & -> & Hs4).
      apply Hsame. eapply same_outbox_trans; [|exact Hs4].
      by apply same_outbox_logged. }
  destruct (send_error env) as [e|] eqn:Herr.
  { destruct (clean_up_returns file_path (logged (LogErrSending e) s2))
      as (s4 & -> & Hs4).
    apply Hsame. eapply same_outbox_trans; [|exact Hs4].
    by apply same_outbox_logged. }
  match goal with
  | |- context [clean_up file_path ?s3] =>
      destruct (clean_up_returns file_path s3)
        as (s4 & -> & Hsent4 & Huid4 & Hcfg4 & Hsched4)
  end.
  cbn in Hsent4, Huid4, Hcfg4, Hsched4.
  apply (Hsent s4 (delivery_of (kind_of s2) file_path video_url s2));
    try congruence; [|by eauto].
  split; [cbn; congruence|]. split; [cbn; unfold kind_of; by rewrite Hcfg2|].
  exists playlist_url. split; [by rewrite Hp|]. cbn. by rewrite Hv.
Qed.

(** X13. A cycle never raises, whatever its collaborators do, and leaves
    the record, the scheduler and the bot's user as they were.  It sends at
    most one message; a message it sends goes to the bot's user, as audio or
    video according to the format of the record, for a video that one of the
    record's playlists resolves to, and only when the cycle was given a
    context and the send did not fail. *)
Theorem cycle_sends_at_most_one env context (s : St) :
  ∃ s', send_random_music env context s = (Ret tt, s') ∧
        config s' = config s ∧ scheduler s' = scheduler s ∧ user_id s' = user_id s ∧
        (sent (world s') = sent (world s) ∨
         ∃ d, sent (world s') = sent (world s) ++ [d] ∧
              cycle_delivery env s d ∧
              is_Some context ∧ send_error env = None).
Proof.
  apply cycle_cases.
  - intros s' (Hsent & Huid & Hcfg & Hsched). exists s'. by eauto 10.
  - intros s' d Hsent Hd Hctx Herr Huid Hcfg Hsched. exists s'.
    split; [done|]. split; [done|]. split; [done|]. split; [done|].
    right. by eauto 10.
Qed.

(** X14. The cycle that the scheduler starts is called without a context
    ([args=[None]]), so it never sends anything: whatever it selects and
    downloads, the messages sent are those there were. *)
Theorem scheduled_cycle_sends_nothing env (s : St) :
  ∃ s', send_random_music env None s = (Ret tt, s') ∧
        sent (world s') = sent (world s).
Proof.
  apply cycle_cases.
  - intros s' (Hsent & _). eauto.
  - intros s' d _ _ [c Hc]. discriminate Hc.
Qed.

Lemma alter_present {A} (g : A → A) (i : nat) (m : gmap nat A) x :
  m !! i = Some x → alter g i m = <[i := g x]> m.
Proof.
  intros Hi. apply map_eq. intros j. rewrite lookup_alter, lookup_insert.
  case_decide; subst; [by rewrite Hi|done].
Qed.

(** The clean-up of the first file of a directory: the file goes, and the
    directory with it when nothing else is in it. *)
Lemma clean_up_run d f rest (s : St) :
  tmp (world s) !! d = Some (f :: rest) →
  fname f ∉ fname <$> rest →
  clean_up {| pdir := d; pname := fname f |} s =
    (Ret tt,
     logged LogCleanedUp
       (set_world
          (set_tmp (match rest with
                    | [] => delete d (tmp (world s))
                    | _ :: _ => <[d := rest]> (tmp (world s))
                    end) (world s)) s)).
Proof.
  intros Hd Hnames. unfold clean_up, try_except.
  rewrite (bind_os_remove _ f).
  2:{ unfold find_file. cbn [pdir pname]. rewrite Hd. cbn [List.find].
      by rewrite String.eqb_refl. }
  cbn [pdir pname]. rewrite (alter_present _ _ _ _ Hd).
  change (List.filter _ (f :: rest)) with (remove_named (fname f) (f :: rest)).
  rewrite remove_named_head by done.
  rewrite bind_dir_exists. state_simpl. rewrite lookup_insert_eq.
  rewrite bind_assoc, (bind_listdir _ rest) by (state_simpl; apply lookup_insert_eq).
  destruct rest as [|g rest]; cbn [fmap list_fmap].
  - rewrite bind_os_rmdir by (state_simpl; apply lookup_insert_eq).
    rewrite logger_run. state_simpl. rewrite delete_insert_eq. by destruct s.
  - rewrite bind_ret, logger_run. state_simpl. by destruct s.
Qed.

(** X15. A cycle of an enabled bot whose fetch succeeds (the drawn playlist
    resolves, the download raises no error and its first listed file is
    within the limit) removes what it fetched whether or not the send
    succeeds: when the download left that one file, the scratch directories
    after the cycle are those before it; when it left other files too, the
    directory of the cycle stays, holding them.  The message is sent exactly
    when the cycle has a context and the API takes the file. *)
Theorem successful_cycle_cleans_up env context playlist_url video_url f rest (s : St) :
  enabled (config s) = true →
  playlists (config s) !! (draw_playlist env mod length (playlists (config s)))%nat
    = Some playlist_url →
  resolved env playlist_url !! (draw_video env mod length (resolved env playlist_url))%nat
    = Some video_url →
  dl_extract_error (download_of env video_url (download_format (config s))) = None →
  dl_error (download_of env video_url (download_format (config s))) = None →
  dl_files (download_of env video_url (download_format (config s))) = f :: rest →
  fname f ∉ fname <$> rest →
  within_limit f s = true →
  ∃ s', send_random_music env context s = (Ret tt, s') ∧
        tmp (world s') =
          match rest with
          | [] => tmp (world s)
          | _ :: _ => <[scratch s := rest]> (tmp (world s))
          end ∧
        sent (world s') =
          sent (world s) ++
            match context, send_error env with
            | Some _, None =>
                [delivery_of (kind_of s) (scratch_path s f) video_url s]
            | _, _ => []
            end.
Proof.
  intros Hen Hpick Hvideo Hextract Herror Hfiles Hnames Hlimit.
  unfold send_random_music. unfold try_except at 1. rewrite bind_gets.
  destruct (playlists (config s)) as [|p ps] eqn:Hp; [done|].
  rewrite Hen. state_simpl. unfold random_choice at 1. rewrite Hpick.
  rewrite bind_ret, bind_logger, bind_get_playlist_videos. state_simpl.
  destruct (resolved env playlist_url) as [|v vs] eqn:Hv; [done|].
  unfold random_choice at 1. rewrite Hvideo.
  rewrite bind_ret, bind_logger, bind_gets. state_simpl.
  match goal with
  | |- context [bind (download_and_convert env ?u ?fmt) ?k ?s0] =>
      set (s1 := s0);
      assert (Hrun : download_and_convert env u fmt s1 =
                       (Ret (Some (scratch_path s1 f)),
                        logged (LogDownloaded f) (made_scratch (f :: rest) s1)))
  end.
  { rewrite (download_and_convert_files _ _ _ _ f rest) by done.
    change (within_limit f s1) with (within_limit f s). by rewrite Hlimit. }
  assert (Hscratch : scratch s1 = scratch s).
  { unfold scratch, s1. state_simpl. by rewrite tmp_resolve_logged. }
  assert (Htmp1 : tmp (world s1) = tmp (world s)).
  { unfold s1. state_simpl. by rewrite tmp_resolve_logged. }
  assert (Hsent1 : sent (world s1) = sent (world s)).
  { unfold s1. state_simpl. by rewrite sent_resolve_logged. }
  rewrite (bind_run _ _ _ _ _ Hrun). cbn beta iota.
  set (s2 := logged (LogDownloaded f) (made_scratch (f :: rest) s1)).
  assert (Hdir : tmp (world s2) !! scratch s1 = Some (f :: rest)).
  { unfold s2, logged, made_scratch. state_simpl. apply lookup_insert_eq. }
  rewrite bind_file_exists.
  assert (Hfile : find_file (scratch_path s1 f) (tmp (world s2)) = Some f).
  { unfold find_file, scratch_path. cbn [pdir pname]. rewrite Hdir. cbn [List.find].
    by rewrite String.eqb_refl. }
  rewrite Hfile.
  fold (send_file env context (scratch_path s1 f) video_url).
  fold (clean_up (scratch_path s1 f)).
  unfold try_finally. rewrite (send_file_run _ _ _ _ f) by done.
  assert (Hkind : kind_of s2 = kind_of s) by done.
  assert (Hfresh : tmp (world s) !! scratch s = None) by apply scratch_fresh.
  unfold scratch_path.
  destruct context as [c|]; [destruct (send_error env) as [e|]|];
    (rewrite (clean_up_run _ f rest) by (done || exact Hdir));
    cbn beta iota; eexists; (split; [reflexivity|]);
    unfold s2, logged, made_scratch; cbn [world set_world tmp set_tmp add_log
      add_sent sent]; rewrite Hscratch, Htmp1, Hsent1;
    (split; [destruct rest; [by apply delete_insert_id|by apply insert_insert_eq]|]);
    rewrite ?app_nil_r; done.
Qed.

(** The enabled sample bot, [/send_now] context, a download of one 3 MB
    file: the file is sent and no scratch directory is left. *)
Lemma successful_cycle_cleans_up_witness :
  let s := sample_bot true 50 in
  ∃ s', send_random_music (sample_env 3145728) (Some {| args := [] |}) s = (Ret tt, s') ∧
        tmp (world s') = ∅ ∧
        sent (world s') =
          [ {| d_kind := Audio; d_chat := 7;
               d_file := {| pdir := scratch s; pname := "song.mp3" |};
               d_url := "https://youtu.be/v1" |} ].
Proof.
  intros s.
  apply (successful_cycle_cleans_up (sample_env 3145728) (Some {| args := [] |})
           sample_playlist "https://youtu.be/v1"
           {| fname := "song.mp3"; fsize := 3145728 |} [] s);
    try reflexivity.
  apply not_elem_of_nil.
Defined.

(** ** ConfigStore, further *)

Lemma settings_json_complete cfg (m : gmap string json) :
  settings_json cfg = JObj m → m ∪ ConfigStore.default_config = m.
Proof.
  unfold settings_json. intros [= <-].
  apply map_eq. intros key.
  destruct (ConfigStore.default_config !! key) as [v|] eqn:Hdef.
  - apply lookup_union_l'.
    apply (elem_of_list_to_map_2 (M := gmap string)) in Hdef.
    unfold ConfigStore.default_items in Hdef.
    rewrite !elem_of_cons, elem_of_nil in Hdef.
    destruct Hdef as [H|[H|[H|[H|[H|[]]]]]]; injection H as -> _;
      eexists; reflexivity.
  - by apply lookup_union_l.
Qed.

(** X16. What a handler saves is what the next start loads: after
    [save_config] on a settings file that can be written, [load_config]
    returns the record of the bot, key for key, with nothing backfilled and
    the file left as it is.  A save on a file that cannot be written leaves
    the file as it was. *)
Theorem save_then_load (s : St) :
  let w' := world (snd (save_config s)) in
  fst (save_config s) = Ret tt ∧
  (disk_writable (world s) = true →
   ConfigStore.load_config w' = (Ret (settings_json (config s)), w')) ∧
  (disk_writable (world s) = false → config_file w' = config_file (world s)).
Proof.
  intros w'. unfold w'. rewrite save_config_run. cbn [fst snd world set_world].
  split; [done|]. unfold persist. split; intros ->; [|done].
  destruct (settings_json (config s)) as [| | | | |m] eqn:Hjson; try done.
  rewrite (load_config_record _ m) by done.
  by rewrite (settings_json_complete (config s) m).
Qed.

(** The sample bot saves, and the record is loaded back. *)
Lemma save_then_load_witness :
  let s := sample_bot true 10 in
  let w' := world (snd (save_config s)) in
  ConfigStore.load_config w' = (Ret (settings_json (config s)), w').
Proof.
  intros s w'.
  destruct (save_then_load s) as (_ & Hload & _). by apply Hload.
Defined.

Lemma backfill_not_a_record items (v : json) :
  (∀ m, v ≠ JObj m) →
  ConfigStore.backfill items v =
    if forallb (λ item, match py_contains v (fst item) with
                        | Ret true => true
                        | _ => false
                        end) items
    then Ret v else Raise TypeError.
Proof.
  intros Hv. induction items as [|[key value] items IH]; [done|].
  cbn [ConfigStore.backfill forallb fst].
  destruct v as [| | | |l|m]; cbn; try done.
  - destruct (is_substring key s); [exact IH|done].
  - destruct (existsb _ l); [exact IH|done].
  - by destruct (Hv m).
Qed.

(** X17. A settings file that holds JSON which is not an object: the merge
    loop of [load_config] raises [TypeError] at the first default key the
    value does not "contain", so the default record is returned and the error
    logged; but a list that has every key name among its elements, or a
    string that has every key name as a substring, passes the loop and is
    returned as the configuration. *)
Theorem load_config_not_a_record (w : World) (v : json) :
  config_file w = Some (JsonText v) →
  (∀ m, v ≠ JObj m) →
  ConfigStore.load_config w =
    if holds_all_keys v then (Ret v, w)
    else (Ret (JObj ConfigStore.default_config),
          add_log (LogErrLoadingConfig TypeError) w).
Proof.
  intros Hf Hv. unfold ConfigStore.load_config, ConfigStore.path_exists,
    ConfigStore.read_json. unfold_monad. rewrite_state Hf.
  rewrite backfill_not_a_record by done. fold (holds_all_keys v).
  by destruct (holds_all_keys v).
Qed.

(** A file with the five key names in an array is loaded as that array; a
    file with the number 5 gives the default record. *)
Lemma load_config_not_a_record_witness :
  (∃ l, ConfigStore.load_config key_names_file = (Ret (JArr l), key_names_file)) ∧
  ConfigStore.load_config (set_config_file (Some (JsonText (JNum 5))) key_names_file) =
    (Ret (JObj ConfigStore.default_config),
     add_log (LogErrLoadingConfig TypeError)
       (set_config_file (Some (JsonText (JNum 5))) key_names_file)).
Proof.
  split.
  - eexists. apply (load_config_not_a_record key_names_file _ eq_refl). discriminate.
  - apply (load_config_not_a_record
             (set_config_file (Some (JsonText (JNum 5))) key_names_file)
             (JNum 5) eq_refl).
    discriminate.
Defined.

(** ** The fetch, whatever the download does *)

Lemma remove_named_subseteq name (files : list File) :
  remove_named name files ⊆ files.
Proof.
  intros g Hg. apply list_elem_of_In in Hg. apply filter_In in Hg as [Hg _].
  by apply list_elem_of_In.
Qed.

(** X18. The fetch never raises, whatever the download does, and touches
    nothing of the bot but the log and one scratch directory: a directory
    that was not there before, which it always leaves behind, on every path,
    holding nothing but files the download wrote; every other directory is
    as it was.  A path it returns names a file that is in that directory, is
    the first the download listed and is within the size limit. *)
Theorem fetch_contained env video_url fmt (s : St) :
  ∃ r s' files,
    download_and_convert env video_url fmt s = (Ret r, s') ∧
    same_bot_but_scratch s s' ∧
    tmp (world s) !! scratch s = None ∧
    tmp (world s') = <[scratch s := files]> (tmp (world s)) ∧
    files ⊆ dl_files (download_of env video_url fmt) ∧
    ∀ file_path, r = Some file_path →
      ∃ f, file_path = scratch_path s f ∧
           find_file file_path (tmp (world s')) = Some f ∧
           head (dl_files (download_of env video_url fmt)) = Some f ∧
           within_limit f s = true.
Proof.
  pose proof (scratch_fresh s) as Hfresh.
  destruct (dl_extract_error (download_of env video_url fmt)) as [e|] eqn:Hextract.
  { rewrite (download_and_convert_extract_error _ _ _ _ e) by done.
    exists None, (logged (LogErrDownloading video_url e) (made_scratch [] s)), [].
    split; [done|]. split; [by repeat split|]. split; [done|]. split; [done|].
    split; [by intros g Hg; apply elem_of_nil in Hg|]. by intros file_path. }
  destruct (dl_error (download_of env video_url fmt)) as [e|] eqn:Herror.
  { rewrite (download_and_convert_download_error _ _ _ _ e) by done.
    do 3 eexists. split; [done|]. split; [by repeat split|]. split; [done|].
    split; [done|]. split; [done|]. by intros file_path. }
  destruct (dl_files (download_of env video_url fmt)) as [|f rest] eqn:Hfiles.
  { rewrite download_and_convert_no_file by done.
    do 3 eexists. split; [done|]. split; [by repeat split|]. split; [done|].
    split; [done|]. split; [done|]. by intros file_path. }
  rewrite (download_and_convert_files _ _ _ _ f rest) by done.
  destruct (within_limit f s) eqn:Hlimit.
  - do 3 eexists. split; [done|]. split; [by repeat split|]. split; [done|].
    split; [done|]. split; [done|].
    intros file_path [= <-]. exists f. split; [done|]. split; [|done].
    unfold find_file, scratch_path, logged, made_scratch.
    cbn [pdir pname world set_world tmp set_tmp add_log].
    rewrite lookup_insert_eq. cbn [List.find]. by rewrite String.eqb_refl.
  - do 3 eexists. split; [done|]. split; [by repeat split|]. split; [done|].
    split; [done|]. split; [apply remove_named_subseteq|]. by intros file_path.
Qed.

(** ** Whose commands run *)

Lemma find_registered env command :
  List.find (λ row, String.eqb (fst row) command) (registered env) =
    (λ '(c, handler), (c, authorized_command handler)) <$>
      List.find (λ row : string * Handler, String.eqb (fst row) command) (handlers env).
Proof.
  unfold registered. induction (handlers env) as [|[c handler] l IH]; [done|].
  cbn [fmap list_fmap List.find fst]. by destruct (String.eqb c command).
Qed.

(** X19. A command of the bot's own user runs the handler of the first row
    of the handler table with that name, on the same update and context, as
    if it were not wrapped; a command that has no row changes nothing. *)
Theorem recipient_command_runs_handler env command update context (s : St) :
  effective_user update = user_id s →
  step env (Inbound command update context) s =
    match List.find (λ row, String.eqb (fst row) command) (handlers env) with
    | Some (_, handler) => snd (handler update context s)
    | None => s
    end.
Proof.
  intros Huser. cbn [step]. rewrite find_registered.
  destruct (List.find _ (handlers env)) as [[c handler]|]; [|done].
  cbn [fmap option_fmap option_map]. by rewrite authorized_command_granted.
Qed.

(** User 7 asks the disabled sample bot for its status. *)
Lemma recipient_command_runs_handler_witness :
  let s := sample_bot false 50 in
  step (sample_env 0) (Inbound "status" recipient {| args := [] |}) s =
    snd (status_command recipient {| args := [] |} s).
Proof.
  intros s.
  exact (recipient_command_runs_handler (sample_env 0) "status" recipient
           {| args := [] |} s eq_refl).
Defined.

Lemma stranger_step env ev (s : St) :
  from_stranger (user_id s) ev →
  config (step env ev s) = config s ∧
  user_id (step env ev s) = user_id s ∧
  sent (world (step env ev s)) = sent (world s).
Proof.
  intros Hev. destruct ev as [|command update context|]; cbn [step].
  - by destruct (setup_scheduler_frame env s) as (-> & -> & _ & _ & _ & -> & _).
  - destruct (List.find _ (registered env)) as [[c handler]|] eqn:Hfind; [|done].
    apply find_some in Hfind as [Hin _]. apply list_elem_of_In in Hin.
    destruct (registered_wrapped env c handler Hin) as [handler_func ->].
    unfold authorized_command, bind.
    by rewrite check_user_permission_denied.
  - destruct (_ && _)%bool; [|done].
    apply (cycle_cases env None s
             (λ r, config (snd r) = config s ∧ user_id (snd r) = user_id s ∧
                   sent (world (snd r)) = sent (world s))).
    + by intros s' (Hsent & Huid & Hcfg & _).
    + intros s' d _ _ [c Hc]. discriminate Hc.
Qed.

(** X20. Nobody but the bot's user can change the record or make the bot
    send: over a run made of commands of other users, start-ups and firings
    of the scheduler, in any number and order and whatever the collaborators
    answer, the record is the one at the beginning and no message is sent. *)
Theorem strangers_change_nothing evs (s : St) :
  Forall (λ e : Env * Event, from_stranger (user_id s) (snd e)) evs →
  config (run_events evs s) = config s ∧
  user_id (run_events evs s) = user_id s ∧
  sent (world (run_events evs s)) = sent (world s).
Proof.
  revert s. induction evs as [|[env ev] evs IH]; intros s Hevs; [done|].
  apply Forall_cons in Hevs as [Hev Hevs]. cbn [snd] in Hev.
  destruct (stranger_step env ev s Hev) as (Hcfg & Huid & Hsent).
  cbn [run_events]. rewrite <- Hcfg, <- Huid, <- Hsent. apply IH.
  by rewrite Huid.
Qed.

(** User 8 tries the commands that change the record on the running sample
    bot of user 7, around a start-up and a firing. *)
Lemma strangers_change_nothing_witness :
  config (run_events stranger_run running_bot) = config running_bot ∧
  sent (world (run_events stranger_run running_bot)) = [].
Proof.
  destruct (strangers_change_nothing stranger_run running_bot) as (Hcfg & _ & Hsent).
  { unfold stranger_run.
    repeat (apply Forall_cons; split; [vm_compute; try done; discriminate|]).
    by apply Forall_nil. }
  split; [exact Hcfg|exact Hsent].
Defined.
